(** * kfifo: a shallow embedding of [kfifo.c] / [kfifo.h]

    The generic kernel FIFO (ring buffer) is embedded as pure functions over
    an explicit fifo record.  Conventions of the embedding:

    - [unsigned int] is a [Z] in [0, 2^32); every operation that can leave
      that range in C is wrapped with [u32].  [size_t] is 64 bits wide
      (LP64) and wrapped with [size_t].
    - A memory region is a [list Z] of bytes (each cell a value in
      [0, 256)); [fifo->data], the [buf] argument of the producers and the
      [buf] argument of the consumers are such regions.
    - An access outside a region, or a division by zero, is undefined
      behaviour in C; the embedded function then returns [None]. *)

From Stdlib Require Import ZArith Lia List.
From stdpp Require Import base option list.

Local Open Scope Z_scope.

(** ** Machine integers *)

Definition u32 (x : Z) : Z := x mod 2 ^ 32.
Definition size_t (x : Z) : Z := x mod 2 ^ 64.
Definition uchar (x : Z) : Z := x mod 2 ^ 8.

(** [#define min(x, y) ((x) < (y) ? (x) : (y))] *)
Definition min (x y : Z) : Z := if decide (x < y) then x else y.

(** [-EINVAL], from <errno.h>. *)
Definition EINVAL : Z := 22.

(** ** Capacity rounding *)

Definition rounddown_pow_of_two (n : Z) : Z :=
  let n := Z.lor n (Z.shiftr n 1) in
  let n := Z.lor n (Z.shiftr n 2) in
  let n := Z.lor n (Z.shiftr n 4) in
  let n := Z.lor n (Z.shiftr n 8) in
  let n := Z.lor n (Z.shiftr n 16) in
  Z.shiftr (u32 (n + 1)) 1.

(** ** Memory regions *)

(** [memcpy(dst + doff, src + soff, n)] between two distinct regions. *)
Definition memcpy (dst : list Z) (doff : Z) (src : list Z) (soff n : Z)
  : option (list Z) :=
  if decide (0 <= doff /\ 0 <= soff /\ 0 <= n /\
             doff + n <= Z.of_nat (length dst) /\
             soff + n <= Z.of_nat (length src))
  then Some (take (Z.to_nat doff) dst
             ++ take (Z.to_nat n) (drop (Z.to_nat soff) src)
             ++ drop (Z.to_nat (doff + n)) dst)
  else None.

(** ** The fifo structure, [struct __kfifo] *)

Record __kfifo : Type := Kfifo {
  in_ : Z;        (* unsigned int in *)
  out : Z;        (* unsigned int out *)
  mask : Z;       (* unsigned int mask *)
  esize : Z;      (* unsigned int esize *)
  data : list Z;  (* void *data: the region it points to *)
}.

Definition set_in (v : Z) (f : __kfifo) : __kfifo :=
  Kfifo v (out f) (mask f) (esize f) (data f).
Definition set_out (v : Z) (f : __kfifo) : __kfifo :=
  Kfifo (in_ f) v (mask f) (esize f) (data f).
Definition set_mask (v : Z) (f : __kfifo) : __kfifo :=
  Kfifo (in_ f) (out f) v (esize f) (data f).
Definition set_esize (v : Z) (f : __kfifo) : __kfifo :=
  Kfifo (in_ f) (out f) (mask f) v (data f).
Definition set_data (d : list Z) (f : __kfifo) : __kfifo :=
  Kfifo (in_ f) (out f) (mask f) (esize f) d.

(** ** Queries of [kfifo.h] *)

Definition kfifo_size (f : __kfifo) : Z := u32 (mask f + 1).
Definition kfifo_len (f : __kfifo) : Z := u32 (in_ f - out f).
Definition kfifo_is_empty (f : __kfifo) : bool := bool_decide (in_ f = out f).
Definition kfifo_is_full (f : __kfifo) : bool := bool_decide (kfifo_len f > mask f).
Definition kfifo_initialized (f : __kfifo) : bool := bool_decide (mask f <> 0).
Definition kfifo_reset (f : __kfifo) : __kfifo := set_in 0 (set_out 0 f).
Definition kfifo_reset_out (f : __kfifo) : __kfifo := set_out (in_ f) f.

(** ** Ring buffer core, [kfifo.c] *)

Definition kfifo_unused (fifo : __kfifo) : Z :=
  u32 (u32 (mask fifo + 1) - u32 (in_ fifo - out fifo)).

(** Returns the fifo as written by the call and the [int] result. *)
Definition __kfifo_init (fifo : __kfifo) (buffer : list Z) (size esize : Z)
  : option (__kfifo * Z) :=
  if decide (esize = 0) then None else
  let size := u32 (size / esize) in
  let size := rounddown_pow_of_two size in
  let fifo := set_in 0 fifo in
  let fifo := set_out 0 fifo in
  let fifo := set_esize (u32 esize) fifo in
  let fifo := set_data buffer fifo in
  if decide (size < 2)
  then Some (set_mask 0 fifo, - EINVAL)
  else Some (set_mask (u32 (size - 1)) fifo, 0).

Definition kfifo_copy_in (fifo : __kfifo) (src : list Z) (len off : Z)
  : option __kfifo :=
  let size := u32 (mask fifo + 1) in
  let esize := esize fifo in
  let off := Z.land off (mask fifo) in
  let '(off, size, len) :=
    if decide (esize <> 1)
    then (u32 (off * esize), u32 (size * esize), u32 (len * esize))
    else (off, size, len) in
  let l := min len (u32 (size - off)) in
  d ← memcpy (data fifo) off src 0 l;
  d ← memcpy d 0 src l (u32 (len - l));
  Some (set_data d fifo).

Definition __kfifo_in (fifo : __kfifo) (buf : list Z) (len : Z)
  : option (__kfifo * Z) :=
  let l := kfifo_unused fifo in
  let len := if decide (len > l) then l else len in
  fifo' ← kfifo_copy_in fifo buf len (in_ fifo);
  Some (set_in (u32 (in_ fifo' + len)) fifo', len).

(** Returns the destination region [dst] as written by the call. *)
Definition kfifo_copy_out (fifo : __kfifo) (dst : list Z) (len off : Z)
  : option (list Z) :=
  let size := u32 (mask fifo + 1) in
  let esize := esize fifo in
  let off := Z.land off (mask fifo) in
  let '(off, size, len) :=
    if decide (esize <> 1)
    then (u32 (off * esize), u32 (size * esize), u32 (len * esize))
    else (off, size, len) in
  let l := min len (u32 (size - off)) in
  dst ← memcpy dst 0 (data fifo) off l;
  memcpy dst l (data fifo) 0 (u32 (len - l)).

Definition __kfifo_out_peek (fifo : __kfifo) (buf : list Z) (len : Z)
  : option (list Z * Z) :=
  let l := u32 (in_ fifo - out fifo) in
  let len := if decide (len > l) then l else len in
  buf' ← kfifo_copy_out fifo buf len (out fifo);
  Some (buf', len).

Definition __kfifo_out (fifo : __kfifo) (buf : list Z) (len : Z)
  : option (__kfifo * list Z * Z) :=
  '(buf', len) ← __kfifo_out_peek fifo buf len;
  Some (set_out (u32 (out fifo + len)) fifo, buf', len).

(** ** Record framing layer *)

(** [1 << (recsize << 3)] is an [int] shift: defined for [recsize <= 3]. *)
Definition __kfifo_max_r (len recsize : Z) : option Z :=
  if decide (size_t (Z.shiftl recsize 3) < 31) then
    let max := u32 (Z.shiftl 1 (size_t (Z.shiftl recsize 3)) - 1) in
    if decide (len > max) then Some max else Some len
  else None.

Definition __KFIFO_PEEK (data : list Z) (out mask : Z) : option Z :=
  data !! Z.to_nat (Z.land out mask).

Definition __kfifo_peek_n (fifo : __kfifo) (recsize : Z) : option Z :=
  let mask := mask fifo in
  let data := data fifo in
  l ← __KFIFO_PEEK data (out fifo) mask;
  if decide (size_t (recsize - 1) <> 0)
  then h ← __KFIFO_PEEK data (u32 (out fifo + 1)) mask;
       Some (u32 (Z.lor l (Z.shiftl h 8)))
  else Some l.

Definition __KFIFO_POKE (data : list Z) (in_ mask val : Z) : option (list Z) :=
  let i := Z.to_nat (Z.land in_ mask) in
  if decide (i < length data)%nat then Some (<[i := uchar val]> data) else None.

Definition __kfifo_poke_n (fifo : __kfifo) (n recsize : Z) : option __kfifo :=
  let mask := mask fifo in
  d ← __KFIFO_POKE (data fifo) (in_ fifo) mask n;
  if decide (recsize > 1)
  then d ← __KFIFO_POKE d (u32 (in_ fifo + 1)) mask (Z.shiftr n 8);
       Some (set_data d fifo)
  else Some (set_data d fifo).

Definition __kfifo_len_r (fifo : __kfifo) (recsize : Z) : option Z :=
  __kfifo_peek_n fifo recsize.

Definition __kfifo_in_r (fifo : __kfifo) (buf : list Z) (len recsize : Z)
  : option (__kfifo * Z) :=
  if decide (size_t (len + recsize) > kfifo_unused fifo) then Some (fifo, 0)
  else
    fifo' ← __kfifo_poke_n fifo len recsize;
    fifo' ← kfifo_copy_in fifo' buf len (u32 (in_ fifo' + recsize));
    Some (set_in (u32 (in_ fifo' + len + recsize)) fifo', len).

(** Returns the written [buf], the result and the value stored in [*n]. *)
Definition kfifo_out_copy_r (fifo : __kfifo) (buf : list Z) (len recsize : Z)
  : option (list Z * Z * Z) :=
  n ← __kfifo_peek_n fifo recsize;
  let len := if decide (len > n) then n else len in
  buf' ← kfifo_copy_out fifo buf len (u32 (out fifo + recsize));
  Some (buf', len, n).

Definition __kfifo_out_peek_r (fifo : __kfifo) (buf : list Z) (len recsize : Z)
  : option (list Z * Z) :=
  if decide (in_ fifo = out fifo) then Some (buf, 0)
  else
    '(buf', len, _) ← kfifo_out_copy_r fifo buf len recsize;
    Some (buf', len).

Definition __kfifo_out_r (fifo : __kfifo) (buf : list Z) (len recsize : Z)
  : option (__kfifo * list Z * Z) :=
  if decide (in_ fifo = out fifo) then Some (fifo, buf, 0)
  else
    '(buf', len, n) ← kfifo_out_copy_r fifo buf len recsize;
    Some (set_out (u32 (out fifo + n + recsize)) fifo, buf', len).

Definition __kfifo_skip_r (fifo : __kfifo) (recsize : Z) : option __kfifo :=
  n ← __kfifo_peek_n fifo recsize;
  Some (set_out (u32 (out fifo + n + recsize)) fifo).

(** * Notions used in the statements *)

(** After smearing the bits of a number whose top bit is [k] with total
    window [w], the bits [k-w+1 .. k] are set and nothing above [k] is. *)
Definition smeared (k w x : Z) : Prop :=
  (forall i, k < i -> Z.testbit x i = false) /\
  (forall i, 0 <= i <= k -> k - i < w -> Z.testbit x i = true).

(** The bodies of [kfifo_copy_in] and [kfifo_copy_out] once the offset [o],
    the size [s] and the length [len] are in bytes: the two-segment copy. *)
Definition ring_write (d : list Z) (s o : Z) (src : list Z) (len : Z)
  : option (list Z) :=
  let l := min len (u32 (s - o)) in
  d ← memcpy d o src 0 l;
  memcpy d 0 src l (u32 (len - l)).

Definition ring_read (dst d : list Z) (s o len : Z) : option (list Z) :=
  let l := min len (u32 (s - o)) in
  dst ← memcpy dst 0 d o l;
  memcpy dst l d 0 (u32 (len - l)).

(** The structural invariant of section 3 of the specification: the
    capacity [mask + 1] is a power of two not below 2, and the data region
    holds [capacity * esize] bytes, a count that fits an [unsigned int]. *)
Record initialized (f : __kfifo) : Prop := {
  init_in : 0 <= in_ f < 2 ^ 32;
  init_out : 0 <= out f < 2 ^ 32;
  init_mask : exists k, 1 <= k /\ mask f + 1 = 2 ^ k;
  init_esize : 1 <= esize f;
  init_bytes : (mask f + 1) * esize f < 2 ^ 32;
  init_data : (mask f + 1) * esize f <= Z.of_nat (length (data f));
}.

(** The occupancy invariant. *)
Definition occupancy_ok (f : __kfifo) : Prop := kfifo_len f <= kfifo_size f.

(** Capacity of the data region in bytes. *)
Definition byte_size (f : __kfifo) : Z := (mask f + 1) * esize f.

(** The queued bytes, oldest first: what [__kfifo_out_peek] delivers when
    asked for everything that is queued. *)
Definition contents (f : __kfifo) : list Z :=
  let n := kfifo_len f in
  default [] (kfifo_copy_out f (replicate (Z.to_nat (n * esize f)) 0) n (out f)).

(** A producer call [(buf, len)] or consumer call [(buf, len)]: the region
    handed to the call and the requested element count. *)
Definition call : Type := (list Z * Z)%type.

(** Runs the producer calls in order; collects the returned counts. *)
Fixpoint enqueue_all (f : __kfifo) (calls : list call)
  : option (__kfifo * list Z) :=
  match calls with
  | [] => Some (f, [])
  | (buf, len) :: rest =>
      '(f1, r) ← __kfifo_in f buf len;
      '(f2, rs) ← enqueue_all f1 rest;
      Some (f2, r :: rs)
  end.

(** Runs the consumer calls in order; collects, for each, the destination
    as written and the returned count. *)
Fixpoint dequeue_all (f : __kfifo) (calls : list call)
  : option (__kfifo * list call) :=
  match calls with
  | [] => Some (f, [])
  | (buf, len) :: rest =>
      '(f1, buf', r) ← __kfifo_out f buf len;
      '(f2, rs) ← dequeue_all f1 rest;
      Some (f2, (buf', r) :: rs)
  end.

(** The bytes a consumer call delivered: the first [r] elements of its
    destination. *)
Definition delivered (es : Z) (c : call) : list Z :=
  take (Z.to_nat (c.2 * es)) c.1.

(** The source of a producer call holds exactly the requested elements. *)
Definition source_ok (es : Z) (c : call) : Prop :=
  0 <= c.2 /\ Z.of_nat (length c.1) = c.2 * es.

(** The destination of a consumer call has room for the requested elements. *)
Definition dest_ok (es : Z) (c : call) : Prop :=
  0 <= c.2 /\ c.2 * es <= Z.of_nat (length c.1).

(** The bytes [__kfifo_poke_n] stores for a record of [len] bytes. *)
Definition record_header (recsize len : Z) : list Z :=
  if decide (recsize > 1) then [uchar len; uchar (Z.shiftr len 8)]
  else [uchar len].

(** Every cell of a region holds a byte. *)
Definition bytes_ok (d : list Z) : Prop := Forall (fun b => 0 <= b < 2 ^ 8) d.

(** The public operations, with their arguments. *)
Inductive op : Type :=
  | Enqueue (buf : list Z) (len : Z)
  | Dequeue (buf : list Z) (len : Z)
  | DequeuePeek (buf : list Z) (len : Z)
  | EnqueueRecord (buf : list Z) (len recsize : Z)
  | DequeueRecord (buf : list Z) (len recsize : Z)
  | DequeueRecordPeek (buf : list Z) (len recsize : Z)
  | PeekRecordLength (recsize : Z)
  | SkipRecord (recsize : Z)
  | Reset
  | ResetOut.

(** The fifo an operation leaves behind. *)
Definition step (o : op) (f : __kfifo) : option __kfifo :=
  match o with
  | Enqueue buf len => '(f', _) ← __kfifo_in f buf len; Some f'
  | Dequeue buf len => '(f', _, _) ← __kfifo_out f buf len; Some f'
  | DequeuePeek buf len => _ ← __kfifo_out_peek f buf len; Some f
  | EnqueueRecord buf len recsize =>
      '(f', _) ← __kfifo_in_r f buf len recsize; Some f'
  | DequeueRecord buf len recsize =>
      '(f', _, _) ← __kfifo_out_r f buf len recsize; Some f'
  | DequeueRecordPeek buf len recsize =>
      _ ← __kfifo_out_peek_r f buf len recsize; Some f
  | PeekRecordLength recsize => _ ← __kfifo_len_r f recsize; Some f
  | SkipRecord recsize => __kfifo_skip_r f recsize
  | Reset => Some (kfifo_reset f)
  | ResetOut => Some (kfifo_reset_out f)
  end.

(** States reached from a successful [__kfifo_init] over a buffer that
    holds the [size] bytes announced, by public operations. *)
Inductive reachable : __kfifo -> Prop :=
  | reachable_init f0 buffer size esize f :
      0 < esize < 2 ^ 64 -> 0 <= size < 2 ^ 32 ->
      size <= Z.of_nat (length buffer) ->
      __kfifo_init f0 buffer size esize = Some (f, 0) ->
      reachable f
  | reachable_step o f f' :
      reachable f -> step o f = Some f' -> reachable f'.

(** Counts are [unsigned int]s and the header width is 1 or 2. *)
Definition args_ok (o : op) : Prop :=
  match o with
  | Enqueue _ len | Dequeue _ len | DequeuePeek _ len => 0 <= len < 2 ^ 32
  | EnqueueRecord _ len recsize
  | DequeueRecord _ len recsize
  | DequeueRecordPeek _ len recsize =>
      0 <= len < 2 ^ 32 /\ (recsize = 1 \/ recsize = 2)
  | PeekRecordLength recsize | SkipRecord recsize => recsize = 1 \/ recsize = 2
  | Reset | ResetOut => True
  end.

(** The header decoded at the read index describes a record that is
    queued in full. *)
Definition header_fits (f : __kfifo) (recsize : Z) : Prop :=
  exists n, __kfifo_peek_n f recsize = Some n /\
            0 <= n /\ n + recsize <= kfifo_len f.

(** The consuming record operations are called on a record that is queued
    in full ([dequeue_record] also on an empty fifo). *)
Definition guarded (o : op) (f : __kfifo) : Prop :=
  match o with
  | DequeueRecord _ _ recsize => in_ f = out f \/ header_fits f recsize
  | SkipRecord recsize => header_fits f recsize
  | _ => True
  end.

(** The regions handed to an operation are large enough for what it
    copies, and the record operations are used on a fifo of bytes. *)
Definition buffers_ok (o : op) (f : __kfifo) : Prop :=
  match o with
  | Enqueue buf len =>
      Z.min len (kfifo_unused f) * esize f <= Z.of_nat (length buf)
  | Dequeue buf len | DequeuePeek buf len =>
      Z.min len (kfifo_len f) * esize f <= Z.of_nat (length buf)
  | EnqueueRecord buf len _ => esize f = 1 /\ len <= Z.of_nat (length buf)
  | DequeueRecord buf len recsize | DequeueRecordPeek buf len recsize =>
      esize f = 1 /\ len <= Z.of_nat (length buf) /\
      (in_ f = out f \/ header_fits f recsize)
  | PeekRecordLength _ | SkipRecord _ | Reset | ResetOut => True
  end.

(** An 8-byte fifo in byte mode whose indices sit two slots before the end
    of the storage, so that longer transfers wrap. *)
Definition fifo8 : __kfifo := Kfifo 6 6 7 1 (replicate 8 0).

(** [fifo8] after the producer calls of 3 and 2 bytes: five bytes queued
    across the end of the storage. *)
Definition fifo8_wrapped : __kfifo :=
  Kfifo 11 6 7 1 [67; 68; 69; 0; 0; 0; 65; 66].

(** Scenario B after [enqueue_record("AB")]. *)
Definition fifo8_AB : __kfifo := Kfifo 3 0 7 1 [2; 65; 66; 0; 0; 0; 0; 0].

(** The fifo that [__kfifo_init] makes of a zeroed buffer of 8 bytes; in
    record mode with a one byte header, the fifo of scenario B. *)
Definition fifo8_fresh : __kfifo := Kfifo 0 0 7 1 (replicate 8 0).

(** A record-mode fifo of 512 bytes with a one byte header. *)
Definition fifo512 : __kfifo := Kfifo 0 0 511 1 (replicate 512 0).

(** * Further code of [kfifo.c] and [kfifo.h] *)

(** [roundup_pow_of_two], the counterpart of [rounddown_pow_of_two]. *)
Definition roundup_pow_of_two (v : Z) : Z :=
  let v := u32 (v - 1) in
  let v := Z.lor v (Z.shiftr v 1) in
  let v := Z.lor v (Z.shiftr v 2) in
  let v := Z.lor v (Z.shiftr v 4) in
  let v := Z.lor v (Z.shiftr v 8) in
  let v := Z.lor v (Z.shiftr v 16) in
  u32 (v + 1).

(** The five smearing steps shared by the two rounding functions. *)
Definition smear32 (n : Z) : Z :=
  let n := Z.lor n (Z.shiftr n 1) in
  let n := Z.lor n (Z.shiftr n 2) in
  let n := Z.lor n (Z.shiftr n 4) in
  let n := Z.lor n (Z.shiftr n 8) in
  Z.lor n (Z.shiftr n 16).

(** [kfifo_skip_n(fifo, n)]: [out += n]. *)
Definition kfifo_skip_n (f : __kfifo) (n : Z) : __kfifo :=
  set_out (u32 (out f + n)) f.

(** [kfifo_skip(fifo)]; [recsize] is [kfifo_recsize(fifo)], the size of the
    record length field: 0 for a fifo without records. *)
Definition kfifo_skip (f : __kfifo) (recsize : Z) : option __kfifo :=
  if decide (recsize <> 0) then __kfifo_skip_r f recsize
  else Some (set_out (u32 (out f + 1)) f).

(** [kfifo_avail(fifo)]; [recsize] as for [kfifo_skip]. *)
Definition kfifo_avail (f : __kfifo) (recsize : Z) : option Z :=
  let avail := u32 (kfifo_size f - kfifo_len f) in
  if decide (recsize <> 0)
  then if decide (avail <= recsize) then Some 0
       else __kfifo_max_r (u32 (size_t (avail - recsize))) recsize
  else Some avail.

(** ** Records as frames *)

(** The largest length a header of [recsize] bytes can hold. *)
Definition max_record (recsize : Z) : Z := 2 ^ (8 * recsize) - 1.

(** A record as it is queued: its header, then its payload. *)
Definition frame (recsize : Z) (p : list Z) : list Z :=
  record_header recsize (Z.of_nat (length p)) ++ p.

Definition frames (recsize : Z) (ps : list (list Z)) : list Z :=
  concat (map (frame recsize) ps).

(** Enqueues the payloads in order, each as one record. *)
Fixpoint enqueue_records (f : __kfifo) (recsize : Z) (ps : list (list Z))
  : option (__kfifo * list Z) :=
  match ps with
  | [] => Some (f, [])
  | p :: rest =>
      '(f1, r) ← __kfifo_in_r f p (Z.of_nat (length p)) recsize;
      '(f2, rs) ← enqueue_records f1 recsize rest;
      Some (f2, r :: rs)
  end.

(** Dequeues one record per destination [(buf, len)]; collects what each
    call delivered. *)
Fixpoint dequeue_records (f : __kfifo) (recsize : Z) (dsts : list call)
  : option (__kfifo * list (list Z)) :=
  match dsts with
  | [] => Some (f, [])
  | (buf, len) :: rest =>
      '(f1, buf', r) ← __kfifo_out_r f buf len recsize;
      '(f2, outs) ← dequeue_records f1 recsize rest;
      Some (f2, take (Z.to_nat r) buf' :: outs)
  end.

(** ** The queued bytes, read off the storage *)

(** The queued bytes, oldest first, by their place in the storage: byte [i]
    is the cell [i] bytes behind the element at [out & mask], modulo the
    size of the ring. *)
Definition queued (f : __kfifo) : list Z :=
  (fun i : nat =>
     default 0 (data f !! Z.to_nat ((Z.land (out f) (mask f) * esize f
                                     + Z.of_nat i) mod byte_size f)))
  <$> seq 0 (Z.to_nat (kfifo_len f * esize f)).

(** The number of elements a list of calls asks for. *)
Definition requested (cs : list call) : Z := foldr (fun c s => c.2 + s) 0 cs.

(** * Properties *)

(** ** Bit smearing *)

Section Smear.
Variables (n k : Z).
Hypothesis Hk : 0 <= k.
Hypothesis Hn : 2 ^ k <= n < 2 ^ (k + 1).

Lemma smeared_init : smeared k 1 n.
Proof using Hk Hn.
  assert (Hlog : Z.log2 n = k).
  { apply Z.log2_unique; lia. }
  split.
  - intros i Hi. apply Z.bits_above_log2; lia.
  - intros i Hi Hw. assert (i = k) by lia. subst i.
    rewrite <- Hlog. apply Z.bit_log2. lia.
Qed.

Lemma smeared_step w x :
  0 < w -> smeared k w x -> smeared k (2 * w) (Z.lor x (Z.shiftr x w)).
Proof using Hk.
  intros Hw [Hhi Hlo]. split.
  - intros i Hi. rewrite Z.lor_spec, Z.shiftr_spec by lia.
    rewrite !Hhi by lia. reflexivity.
  - intros i Hi Hd. rewrite Z.lor_spec, Z.shiftr_spec by lia.
    destruct (Z_lt_dec (k - i) w) as [Hlt|Hge].
    + rewrite Hlo by lia. reflexivity.
    + rewrite (Hlo (i + w)) by lia. apply orb_true_r.
Qed.

Lemma smeared_ones w x :
  0 <= x -> k < w -> smeared k w x -> x = Z.ones (k + 1).
Proof using Hk.
  intros Hx Hw [Hhi Hlo]. apply Z.bits_inj'. intros i Hi.
  destruct (Z_lt_dec k i) as [Hlt|Hge].
  - rewrite Hhi by lia. rewrite Z.ones_spec_high by lia. reflexivity.
  - rewrite Hlo by lia. rewrite Z.ones_spec_low by lia. reflexivity.
Qed.
End Smear.

Lemma rounddown_smear n k :
  0 <= k < 32 -> 2 ^ k <= n < 2 ^ (k + 1) ->
  rounddown_pow_of_two n = Z.shiftr (u32 (2 ^ (k + 1))) 1.
Proof.
  intros Hk Hn. unfold rounddown_pow_of_two.
  pose proof (smeared_init n k ltac:(lia) Hn) as H1.
  apply (smeared_step k ltac:(lia) 1) in H1; [|lia].
  apply (smeared_step k ltac:(lia) 2) in H1; [|lia].
  apply (smeared_step k ltac:(lia) 4) in H1; [|lia].
  apply (smeared_step k ltac:(lia) 8) in H1; [|lia].
  apply (smeared_step k ltac:(lia) 16) in H1; [|lia].
  change (2 * 1) with 2 in *. change (2 * 2) with 4 in *.
  change (2 * 4) with 8 in *. change (2 * 8) with 16 in *.
  change (2 * 16) with 32 in *.
  apply (smeared_ones k ltac:(lia)) in H1; [| |lia].
  - rewrite H1. rewrite Z.ones_equiv. f_equal. f_equal. lia.
  - assert (0 <= n) by lia.
    repeat (apply Z.lor_nonneg; split; [|apply Z.shiftr_nonneg]); assumption.
Qed.

(** For [1 <= n < 2^31] the result is the largest power of two below [n]. *)
Lemma rounddown_pow_of_two_spec n :
  1 <= n < 2 ^ 31 ->
  rounddown_pow_of_two n = 2 ^ Z.log2 n /\
  rounddown_pow_of_two n <= n < 2 * rounddown_pow_of_two n.
Proof.
  intros Hn.
  pose proof (Z.log2_spec n ltac:(lia)) as Hs.
  pose proof (Z.log2_nonneg n) as H0.
  assert (Hlt : Z.log2 n < 31).
  { apply Z.log2_lt_pow2; lia. }
  assert (E : rounddown_pow_of_two n = 2 ^ Z.log2 n).
  { rewrite (rounddown_smear n (Z.log2 n)) by (try lia; replace (Z.log2 n + 1) with (Z.succ (Z.log2 n)) by lia; exact Hs).
    unfold u32. rewrite Z.mod_small.
    - rewrite Z.shiftr_div_pow2 by lia. rewrite Z.pow_add_r by lia.
      change (2 ^ 1) with 2. apply Z.div_mul. lia.
    - split; [apply Z.pow_nonneg; lia|]. apply Z.pow_lt_mono_r; lia. }
  split; [exact E|]. rewrite E.
  replace (2 * 2 ^ Z.log2 n) with (2 ^ Z.succ (Z.log2 n)); [exact Hs|].
  rewrite Z.pow_succ_r by lia. reflexivity.
Qed.

Lemma rounddown_pow_of_two_0 : rounddown_pow_of_two 0 = 0.
Proof. reflexivity. Qed.

Lemma rounddown_pow_of_two_high n :
  2 ^ 31 <= n < 2 ^ 32 -> rounddown_pow_of_two n = 0.
Proof.
  intros Hn. rewrite (rounddown_smear n 31) by (simpl; lia). reflexivity.
Qed.

(** ** Machine arithmetic *)

Lemma u32_range x : 0 <= u32 x < 2 ^ 32.
Proof. unfold u32. apply Z.mod_pos_bound. lia. Qed.

Lemma u32_small x : 0 <= x < 2 ^ 32 -> u32 x = x.
Proof. intros H. unfold u32. apply Z.mod_small. exact H. Qed.

Lemma min_Zmin x y : min x y = Z.min x y.
Proof. unfold min. case_decide; lia. Qed.

(** Position [q - o] on a ring of [s] slots. *)
Lemma ring_sub q o s :
  0 <= q < s -> 0 <= o <= s ->
  (q - o) mod s = if decide (o <= q) then q - o else q - o + s.
Proof.
  intros Hq Ho. case_decide.
  - apply Z.mod_small. lia.
  - symmetry. apply (Z.mod_unique_pos _ _ (-1)); lia.
Qed.

Lemma ring_add o j s :
  0 <= o < s -> 0 <= j <= s ->
  (o + j) mod s = if decide (o + j < s) then o + j else o + j - s.
Proof.
  intros Ho Hj. case_decide.
  - apply Z.mod_small. lia.
  - symmetry. apply (Z.mod_unique_pos _ _ 1); lia.
Qed.

(** ** [memcpy] *)

Lemma memcpy_Some dst doff src soff n :
  0 <= doff -> 0 <= soff -> 0 <= n ->
  doff + n <= Z.of_nat (length dst) -> soff + n <= Z.of_nat (length src) ->
  is_Some (memcpy dst doff src soff n).
Proof.
  intros. unfold memcpy. rewrite decide_True by tauto. eexists. reflexivity.
Qed.

Lemma memcpy_length dst doff src soff n d :
  memcpy dst doff src soff n = Some d -> length d = length dst.
Proof.
  unfold memcpy. case_decide as H; [|discriminate]. intros [= <-].
  rewrite !length_app, !length_take, !length_drop. lia.
Qed.

Lemma memcpy_lookup dst doff src soff n d (i : nat) :
  memcpy dst doff src soff n = Some d ->
  d !! i = if decide (doff <= Z.of_nat i < doff + n)
           then src !! Z.to_nat (soff + (Z.of_nat i - doff))
           else dst !! i.
Proof.
  unfold memcpy. case_decide as H; [|discriminate]. intros [= <-].
  destruct H as (H1 & H2 & H3 & H4 & H5).
  destruct (decide (Z.of_nat i < doff)) as [Hlo|Hlo].
  - rewrite decide_False by lia.
    rewrite lookup_app_l by (rewrite length_take; lia).
    apply lookup_take_lt. lia.
  - rewrite lookup_app_r by (rewrite length_take; lia).
    rewrite length_take.
    destruct (decide (Z.of_nat i < doff + n)) as [Hhi|Hhi].
    + rewrite decide_True by lia.
      rewrite lookup_app_l by (rewrite length_take, length_drop; lia).
      rewrite lookup_take_lt by lia. rewrite lookup_drop. f_equal. lia.
    + rewrite decide_False by lia.
      rewrite lookup_app_r by (rewrite length_take, length_drop; lia).
      rewrite length_take, length_drop, lookup_drop. f_equal. lia.
Qed.

(** ** The two-segment copy *)

Lemma ring_write_spec d s o src len :
  0 <= o < s -> s < 2 ^ 32 -> 0 <= len <= s ->
  s <= Z.of_nat (length d) -> len <= Z.of_nat (length src) ->
  exists d', ring_write d s o src len = Some d' /\ length d' = length d /\
    forall i : nat,
      d' !! i = if decide (Z.of_nat i < s /\ (Z.of_nat i - o) mod s < len)
                then src !! Z.to_nat ((Z.of_nat i - o) mod s)
                else d !! i.
Proof.
  intros Ho Hs Hlen Hd Hsrc. unfold ring_write.
  rewrite min_Zmin, (u32_small (s - o)) by lia.
  set (l := Z.min len (s - o)).
  destruct (memcpy_Some d o src 0 l) as [d1 H1]; try lia.
  rewrite H1. simpl.
  rewrite (u32_small (len - l)) by lia.
  pose proof (memcpy_length _ _ _ _ _ _ H1) as L1.
  destruct (memcpy_Some d1 0 src l (len - l)) as [d2 H2]; try lia.
  exists d2. split; [exact H2|]. split.
  { rewrite (memcpy_length _ _ _ _ _ _ H2). exact L1. }
  intros i. rewrite (memcpy_lookup _ _ _ _ _ _ i H2), (memcpy_lookup _ _ _ _ _ _ i H1).
  destruct (decide (Z.of_nat i < s)) as [Hi|Hi].
  - rewrite ring_sub by lia.
    repeat case_decide; try lia; f_equal; lia.
  - repeat case_decide; try lia; reflexivity.
Qed.

Lemma ring_read_spec dst d s o len :
  0 <= o < s -> s < 2 ^ 32 -> 0 <= len <= s ->
  s <= Z.of_nat (length d) -> len <= Z.of_nat (length dst) ->
  exists dst', ring_read dst d s o len = Some dst' /\
    length dst' = length dst /\
    forall i : nat,
      dst' !! i = if decide (Z.of_nat i < len)
                  then d !! Z.to_nat ((o + Z.of_nat i) mod s)
                  else dst !! i.
Proof.
  intros Ho Hs Hlen Hd Hdst. unfold ring_read.
  rewrite min_Zmin, (u32_small (s - o)) by lia.
  set (l := Z.min len (s - o)).
  destruct (memcpy_Some dst 0 d o l) as [d1 H1]; try lia.
  rewrite H1. simpl.
  rewrite (u32_small (len - l)) by lia.
  pose proof (memcpy_length _ _ _ _ _ _ H1) as L1.
  destruct (memcpy_Some d1 l d 0 (len - l)) as [d2 H2]; try lia.
  exists d2. split; [exact H2|]. split.
  { rewrite (memcpy_length _ _ _ _ _ _ H2). exact L1. }
  intros i. rewrite (memcpy_lookup _ _ _ _ _ _ i H2), (memcpy_lookup _ _ _ _ _ _ i H1).
  destruct (decide (Z.of_nat i < len)) as [Hi|Hi].
  - rewrite ring_add by lia.
    repeat case_decide; try lia; f_equal; lia.
  - repeat case_decide; try lia; reflexivity.
Qed.

(** ** Initialized fifos *)

Section Initialized.
Variable f : __kfifo.
Hypothesis Hinit : initialized f.

Lemma capacity_range : 2 <= mask f + 1 < 2 ^ 32.
Proof using Hinit.
  destruct Hinit as [_ _ (k & Hk & E) He Hb _]. split.
  - rewrite E. change 2 with (2 ^ 1) at 1. apply Z.pow_le_mono_r; lia.
  - nia.
Qed.

Lemma kfifo_size_capacity : kfifo_size f = mask f + 1.
Proof using Hinit. apply u32_small. pose proof capacity_range. lia. Qed.

Lemma byte_size_range : 2 <= byte_size f < 2 ^ 32.
Proof using Hinit.
  pose proof capacity_range. unfold byte_size.
  destruct Hinit as [_ _ _ He Hb _]. split; [nia|lia].
Qed.

Lemma land_mask x : Z.land x (mask f) = x mod (mask f + 1).
Proof using Hinit.
  destruct Hinit as [_ _ (k & Hk & E) _ _ _].
  replace (mask f) with (Z.ones k) by (rewrite Z.ones_equiv; lia).
  rewrite Z.land_ones by lia. rewrite Z.ones_equiv.
  f_equal. lia.
Qed.

(** The counter width is a multiple of the capacity. *)
Lemma capacity_divides : exists t, 2 ^ 32 = t * (mask f + 1).
Proof using Hinit.
  pose proof capacity_range as Hc.
  destruct Hinit as [_ _ (k & Hk & E) _ _ _].
  assert (k < 32).
  { apply (Z.pow_lt_mono_r_iff 2); lia. }
  exists (2 ^ (32 - k)). rewrite E, <- Z.pow_add_r by lia. f_equal. lia.
Qed.

Lemma byte_offset x :
  (x mod (mask f + 1)) * esize f = (x * esize f) mod byte_size f.
Proof using Hinit.
  unfold byte_size. pose proof capacity_range.
  destruct Hinit as [_ _ _ He _ _].
  rewrite Z.mul_mod_distr_r by lia. reflexivity.
Qed.

(** Indices that agree modulo [2^32] name the same byte of the ring. *)
Lemma byte_pos_wrap x y q j :
  x = y + q * 2 ^ 32 ->
  (x * esize f + j) mod byte_size f = (y * esize f + j) mod byte_size f.
Proof using Hinit.
  intros ->. destruct capacity_divides as [t Ht]. rewrite Ht.
  unfold byte_size.
  replace ((y + q * (t * (mask f + 1))) * esize f + j)
    with (y * esize f + j + (q * t) * ((mask f + 1) * esize f)) by ring.
  apply Z_mod_plus_full.
Qed.

Lemma u32_split x : exists q, u32 x = x + q * 2 ^ 32.
Proof.
  exists (- (x / 2 ^ 32)). unfold u32. rewrite Z.mod_eq by lia. ring.
Qed.

Lemma kfifo_copy_in_ring src len off :
  0 <= len <= mask f + 1 ->
  kfifo_copy_in f src len off =
    d ← ring_write (data f) (byte_size f) ((off * esize f) mod byte_size f)
          src (len * esize f);
    Some (set_data d f).
Proof using Hinit.
  intros Hlen. unfold kfifo_copy_in, ring_write.
  pose proof capacity_range as Hc. pose proof byte_size_range as Hb.
  pose proof (init_esize _ Hinit) as He.
  rewrite land_mask, <- byte_offset.
  rewrite (u32_small (mask f + 1)) by lia.
  assert (0 <= off mod (mask f + 1) < mask f + 1) by (apply Z.mod_pos_bound; lia).
  unfold byte_size in *.
  case_decide as E.
  - rewrite (u32_small (off mod (mask f + 1) * esize f)) by nia.
    rewrite (u32_small ((mask f + 1) * esize f)) by nia.
    rewrite (u32_small (len * esize f)) by nia.
    destruct (memcpy (data f) _ src 0 _); reflexivity.
  - assert (E1 : esize f = 1) by lia. rewrite E1, !Z.mul_1_r.
    destruct (memcpy (data f) _ src 0 _); reflexivity.
Qed.

Lemma kfifo_copy_out_ring dst len off :
  0 <= len <= mask f + 1 ->
  kfifo_copy_out f dst len off =
    ring_read dst (data f) (byte_size f) ((off * esize f) mod byte_size f)
      (len * esize f).
Proof using Hinit.
  intros Hlen. unfold kfifo_copy_out, ring_read.
  pose proof capacity_range as Hc. pose proof byte_size_range as Hb.
  pose proof (init_esize _ Hinit) as He.
  rewrite land_mask, <- byte_offset.
  rewrite (u32_small (mask f + 1)) by lia.
  assert (0 <= off mod (mask f + 1) < mask f + 1) by (apply Z.mod_pos_bound; lia).
  unfold byte_size in *.
  case_decide as E.
  - rewrite (u32_small (off mod (mask f + 1) * esize f)) by nia.
    rewrite (u32_small ((mask f + 1) * esize f)) by nia.
    rewrite (u32_small (len * esize f)) by nia. reflexivity.
  - assert (E1 : esize f = 1) by lia. rewrite E1, !Z.mul_1_r. reflexivity.
Qed.
End Initialized.

(** ** Index arithmetic *)

Lemma len_after_in i o n :
  0 <= n -> u32 (i - o) + n < 2 ^ 32 ->
  u32 (u32 (i + n) - o) = u32 (i - o) + n.
Proof.
  intros Hn Hlt. pose proof (u32_range (i - o)). unfold u32 in *.
  rewrite Zminus_mod_idemp_l.
  replace (i + n - o) with ((i - o) + n) by ring.
  rewrite <- Zplus_mod_idemp_l. apply Z.mod_small. lia.
Qed.

Lemma len_after_out i o n :
  0 <= n <= u32 (i - o) ->
  u32 (i - u32 (o + n)) = u32 (i - o) - n.
Proof.
  intros Hn. pose proof (u32_range (i - o)). unfold u32 in *.
  rewrite Zminus_mod_idemp_r.
  replace (i - (o + n)) with ((i - o) - n) by ring.
  rewrite <- Zminus_mod_idemp_l. apply Z.mod_small. lia.
Qed.

Lemma list_eq_lookup_lt (l1 l2 : list Z) :
  length l1 = length l2 ->
  (forall i : nat, (i < length l1)%nat -> l1 !! i = l2 !! i) ->
  l1 = l2.
Proof.
  intros Hlen H. apply list_eq. intros i.
  destruct (decide (i < length l1)%nat) as [Hi|Hi]; [auto|].
  rewrite !lookup_ge_None_2 by lia. reflexivity.
Qed.

(** ** The copy primitives on an initialized fifo *)

Section Copy.
Variable f : __kfifo.
Hypothesis Hinit : initialized f.

Lemma kfifo_copy_in_spec src len off :
  0 <= len <= mask f + 1 ->
  len * esize f <= Z.of_nat (length src) ->
  exists d', kfifo_copy_in f src len off = Some (set_data d' f) /\
    length d' = length (data f) /\
    forall i : nat,
      d' !! i =
        if decide (Z.of_nat i < byte_size f /\
                   (Z.of_nat i - off * esize f) mod byte_size f < len * esize f)
        then src !! Z.to_nat ((Z.of_nat i - off * esize f) mod byte_size f)
        else data f !! i.
Proof using Hinit.
  intros Hlen Hsrc. rewrite kfifo_copy_in_ring by assumption.
  pose proof (byte_size_range f Hinit) as Hb.
  pose proof (init_esize _ Hinit) as He.
  pose proof (init_data _ Hinit) as Hd. fold (byte_size f) in Hd.
  destruct (ring_write_spec (data f) (byte_size f)
              ((off * esize f) mod byte_size f) src (len * esize f))
    as (d' & E & L & Hlook); try lia.
  { apply Z.mod_pos_bound. lia. }
  { unfold byte_size. nia. }
  exists d'. rewrite E. split; [reflexivity|]. split; [exact L|].
  intros i. rewrite Hlook, Zminus_mod_idemp_r. reflexivity.
Qed.

Lemma kfifo_copy_out_spec dst len off :
  0 <= len <= mask f + 1 ->
  len * esize f <= Z.of_nat (length dst) ->
  exists dst', kfifo_copy_out f dst len off = Some dst' /\
    length dst' = length dst /\
    forall i : nat,
      dst' !! i =
        if decide (Z.of_nat i < len * esize f)
        then data f !! Z.to_nat ((off * esize f + Z.of_nat i) mod byte_size f)
        else dst !! i.
Proof using Hinit.
  intros Hlen Hdst. rewrite kfifo_copy_out_ring by assumption.
  pose proof (byte_size_range f Hinit) as Hb.
  pose proof (init_esize _ Hinit) as He.
  pose proof (init_data _ Hinit) as Hd. fold (byte_size f) in Hd.
  destruct (ring_read_spec dst (data f) (byte_size f)
              ((off * esize f) mod byte_size f) (len * esize f))
    as (d' & E & L & Hlook); try lia.
  { apply Z.mod_pos_bound. lia. }
  { unfold byte_size. nia. }
  exists d'. split; [exact E|]. split; [exact L|].
  intros i. rewrite Hlook, Zplus_mod_idemp_l. reflexivity.
Qed.
End Copy.

(** ** The queued bytes *)

Lemma contents_spec f :
  initialized f -> occupancy_ok f ->
  Z.of_nat (length (contents f)) = kfifo_len f * esize f /\
  forall i : nat, Z.of_nat i < kfifo_len f * esize f ->
    contents f !! i =
      data f !! Z.to_nat ((out f * esize f + Z.of_nat i) mod byte_size f).
Proof.
  intros Hinit Hocc. unfold contents. cbv zeta.
  pose proof (u32_range (in_ f - out f)) as Hr. fold (kfifo_len f) in Hr.
  pose proof (init_esize _ Hinit) as He.
  unfold occupancy_ok in Hocc. rewrite kfifo_size_capacity in Hocc by assumption.
  destruct (kfifo_copy_out_spec f Hinit
              (replicate (Z.to_nat (kfifo_len f * esize f)) 0)
              (kfifo_len f) (out f)) as (d & E & L & Hlook).
  { lia. }
  { rewrite length_replicate. nia. }
  rewrite E. simpl. rewrite L, length_replicate. split; [nia|].
  intros i Hi. rewrite Hlook, decide_True by lia. reflexivity.
Qed.

(** ** Advancing the indices *)

Lemma initialized_set_in f v d :
  initialized f -> length d = length (data f) ->
  initialized (set_in (u32 v) (set_data d f)).
Proof.
  intros [H1 H2 H3 H4 H5 H6] L. constructor; simpl; try assumption.
  - apply u32_range.
  - rewrite L. assumption.
Qed.

Lemma initialized_set_out f v :
  initialized f -> initialized (set_out (u32 v) f).
Proof.
  intros [H1 H2 H3 H4 H5 H6]. constructor; simpl; try assumption.
  apply u32_range.
Qed.

(** Bytes written at the write index and published by advancing it are
    appended to the queued bytes. *)
Lemma contents_append f d' src n :
  initialized f -> occupancy_ok f ->
  0 <= n -> kfifo_len f + n <= mask f + 1 ->
  n * esize f <= Z.of_nat (length src) ->
  length d' = length (data f) ->
  (forall i : nat,
     d' !! i =
       if decide (Z.of_nat i < byte_size f /\
                  (Z.of_nat i - in_ f * esize f) mod byte_size f < n * esize f)
       then src !! Z.to_nat ((Z.of_nat i - in_ f * esize f) mod byte_size f)
       else data f !! i) ->
  contents (set_in (u32 (in_ f + n)) (set_data d' f))
  = contents f ++ take (Z.to_nat (n * esize f)) src.
Proof.
  intros Hinit Hocc Hn Hfit Hsrc L Hlook.
  set (f' := set_in (u32 (in_ f + n)) (set_data d' f)).
  assert (Hinit' : initialized f') by (apply initialized_set_in; assumption).
  pose proof (capacity_range f Hinit) as Hc.
  pose proof (byte_size_range f Hinit) as Hb.
  pose proof (init_esize _ Hinit) as He.
  pose proof (u32_range (in_ f - out f)) as Hr. fold (kfifo_len f) in Hr.
  assert (Hlen' : kfifo_len f' = kfifo_len f + n).
  { unfold kfifo_len, f'. simpl. apply len_after_in; [lia|].
    fold (kfifo_len f). lia. }
  assert (Hocc' : occupancy_ok f').
  { unfold occupancy_ok. rewrite Hlen'.
    rewrite kfifo_size_capacity by assumption. unfold f'. simpl. lia. }
  destruct (contents_spec f Hinit Hocc) as [Lc Hc0].
  destruct (contents_spec f' Hinit' Hocc') as [Lc' Hc1].
  rewrite Hlen' in Lc', Hc1.
  change (esize f') with (esize f) in *. change (out f') with (out f) in *.
  change (byte_size f') with (byte_size f) in *.
  change (data f') with d' in *.
  apply list_eq_lookup_lt.
  { rewrite length_app, length_take. nia. }
  intros i Hi. rewrite Hc1 by nia. rewrite Hlook.
  set (p := (out f * esize f + Z.of_nat i) mod byte_size f).
  assert (Hp : 0 <= p < byte_size f) by (apply Z.mod_pos_bound; lia).
  rewrite Z2Nat.id by lia.
  assert (Hshift : (p - in_ f * esize f) mod byte_size f
                   = (Z.of_nat i - kfifo_len f * esize f) mod byte_size f).
  { unfold p. rewrite Zminus_mod_idemp_l.
    destruct (u32_split (in_ f - out f)) as [q Hq]. fold (kfifo_len f) in Hq.
    replace (out f * esize f + Z.of_nat i - in_ f * esize f)
      with ((out f - in_ f) * esize f + Z.of_nat i) by ring.
    replace (Z.of_nat i - kfifo_len f * esize f)
      with ((- kfifo_len f) * esize f + Z.of_nat i) by ring.
    symmetry. apply (byte_pos_wrap f Hinit _ _ (- q)). rewrite Hq. ring. }
  rewrite Hshift.
  destruct (decide (Z.of_nat i < kfifo_len f * esize f)) as [Hlo|Hhi].
  - assert (E : (Z.of_nat i - kfifo_len f * esize f) mod byte_size f
                = Z.of_nat i - kfifo_len f * esize f + byte_size f).
    { symmetry. apply (Z.mod_unique_pos _ _ (-1)); [|ring].
      unfold byte_size in *. nia. }
    rewrite E, decide_False by (unfold byte_size in *; nia).
    rewrite lookup_app_l by lia. rewrite Hc0 by lia. reflexivity.
  - assert (E : (Z.of_nat i - kfifo_len f * esize f) mod byte_size f
                = Z.of_nat i - kfifo_len f * esize f).
    { apply Z.mod_small. unfold byte_size in *. nia. }
    rewrite E, decide_True by nia.
    rewrite lookup_app_r by lia. rewrite lookup_take_lt by nia.
    f_equal. lia.
Qed.

(** Advancing the read index drops the oldest bytes. *)
Lemma contents_drop f n :
  initialized f -> occupancy_ok f ->
  0 <= n <= kfifo_len f ->
  contents (set_out (u32 (out f + n)) f)
  = drop (Z.to_nat (n * esize f)) (contents f).
Proof.
  intros Hinit Hocc Hn.
  set (f' := set_out (u32 (out f + n)) f).
  assert (Hinit' : initialized f') by (apply initialized_set_out; assumption).
  pose proof (capacity_range f Hinit) as Hc.
  pose proof (byte_size_range f Hinit) as Hb.
  pose proof (init_esize _ Hinit) as He.
  assert (Hlen' : kfifo_len f' = kfifo_len f - n).
  { unfold kfifo_len, f'. simpl. apply len_after_out. exact Hn. }
  assert (Hocc' : occupancy_ok f').
  { unfold occupancy_ok in *. rewrite Hlen'.
    rewrite kfifo_size_capacity in * by assumption. unfold f'. simpl. lia. }
  destruct (contents_spec f Hinit Hocc) as [Lc Hc0].
  destruct (contents_spec f' Hinit' Hocc') as [Lc' Hc1].
  rewrite Hlen' in Lc', Hc1.
  change (esize f') with (esize f) in *.
  change (byte_size f') with (byte_size f) in *.
  change (data f') with (data f) in *.
  change (out f') with (u32 (out f + n)) in *.
  apply list_eq_lookup_lt.
  { rewrite length_drop. nia. }
  intros i Hi. rewrite Hc1 by nia. rewrite lookup_drop, Hc0 by nia.
  f_equal. f_equal.
  destruct (u32_split (out f + n)) as [q Hq].
  rewrite (byte_pos_wrap f Hinit _ _ q _ Hq). f_equal. nia.
Qed.

(** Copying out [len] elements found [skip] elements behind the read index
    delivers the corresponding slice of the queued bytes. *)
Lemma kfifo_copy_out_contents f dst len skip off q :
  initialized f -> occupancy_ok f ->
  off = out f + skip + q * 2 ^ 32 ->
  0 <= skip -> 0 <= len -> skip + len <= kfifo_len f ->
  len * esize f <= Z.of_nat (length dst) ->
  kfifo_copy_out f dst len off
  = Some (take (Z.to_nat (len * esize f))
            (drop (Z.to_nat (skip * esize f)) (contents f))
          ++ drop (Z.to_nat (len * esize f)) dst).
Proof.
  intros Hinit Hocc Hoff Hskip Hlen Hfit Hdst.
  pose proof (capacity_range f Hinit) as Hc.
  pose proof (init_esize _ Hinit) as He.
  pose proof Hocc as Hocc1. unfold occupancy_ok in Hocc1.
  rewrite kfifo_size_capacity in Hocc1 by assumption.
  destruct (contents_spec f Hinit Hocc) as [Lc Hc0].
  destruct (kfifo_copy_out_spec f Hinit dst len off) as (d & E & L & Hlook);
    [lia|lia|].
  rewrite E. f_equal. apply list_eq_lookup_lt.
  { rewrite length_app, length_take, !length_drop. nia. }
  intros i Hi. rewrite Hlook. case_decide as Hd.
  - rewrite lookup_app_l by (rewrite length_take, length_drop; nia).
    rewrite lookup_take_lt by lia. rewrite lookup_drop, Hc0 by nia.
    f_equal. f_equal.
    rewrite (byte_pos_wrap f Hinit _ _ q _ Hoff). f_equal. nia.
  - rewrite lookup_app_r by (rewrite length_take, length_drop; nia).
    rewrite lookup_drop. f_equal. rewrite length_take, length_drop. nia.
Qed.

(** ** Enqueue and dequeue *)

Lemma kfifo_unused_eq f :
  initialized f -> occupancy_ok f ->
  kfifo_unused f = kfifo_size f - kfifo_len f.
Proof.
  intros Hinit Hocc. unfold kfifo_unused.
  fold (kfifo_size f) (kfifo_len f).
  pose proof (capacity_range f Hinit).
  pose proof (u32_range (in_ f - out f)) as Hr. fold (kfifo_len f) in Hr.
  unfold occupancy_ok in Hocc.
  rewrite kfifo_size_capacity in * by assumption.
  apply u32_small. lia.
Qed.

Lemma clamp_min len l : (if decide (len > l) then l else len) = Z.min len l.
Proof. case_decide; lia. Qed.

Lemma kfifo_in_spec f buf len :
  initialized f -> occupancy_ok f -> 0 <= len ->
  let n := Z.min len (kfifo_unused f) in
  n * esize f <= Z.of_nat (length buf) ->
  exists d',
    __kfifo_in f buf len = Some (set_in (u32 (in_ f + n)) (set_data d' f), n) /\
    length d' = length (data f) /\
    (forall i : nat,
       d' !! i =
         if decide (Z.of_nat i < byte_size f /\
                    (Z.of_nat i - in_ f * esize f) mod byte_size f < n * esize f)
         then buf !! Z.to_nat ((Z.of_nat i - in_ f * esize f) mod byte_size f)
         else data f !! i).
Proof.
  intros Hinit Hocc Hlen n Hbuf.
  pose proof (kfifo_unused_eq f Hinit Hocc) as Hu.
  pose proof (u32_range (in_ f - out f)) as Hr. fold (kfifo_len f) in Hr.
  pose proof Hocc as Hocc1. unfold occupancy_ok in Hocc1.
  rewrite kfifo_size_capacity in * by assumption.
  unfold __kfifo_in. rewrite clamp_min. fold n.
  destruct (kfifo_copy_in_spec f Hinit buf n (in_ f)) as (d' & E & L & Hlook);
    [lia|lia|].
  exists d'. rewrite E. simpl. split; [reflexivity|]. split; assumption.
Qed.

Lemma kfifo_in_contents f buf len f' r :
  initialized f -> occupancy_ok f -> 0 <= len ->
  Z.min len (kfifo_unused f) * esize f <= Z.of_nat (length buf) ->
  __kfifo_in f buf len = Some (f', r) ->
  r = Z.min len (kfifo_unused f) /\
  initialized f' /\ occupancy_ok f' /\
  kfifo_len f' = kfifo_len f + r /\
  mask f' = mask f /\ esize f' = esize f /\
  contents f' = contents f ++ take (Z.to_nat (r * esize f)) buf.
Proof.
  intros Hinit Hocc Hlen Hbuf Hrun.
  destruct (kfifo_in_spec f buf len Hinit Hocc Hlen Hbuf) as (d' & E & L & Hlook).
  rewrite E in Hrun. injection Hrun as <- <-.
  pose proof (kfifo_unused_eq f Hinit Hocc) as Hu.
  pose proof (u32_range (in_ f - out f)) as Hr. fold (kfifo_len f) in Hr.
  pose proof Hocc as Hocc1. unfold occupancy_ok in Hocc1.
  rewrite kfifo_size_capacity in * by assumption.
  pose proof (capacity_range f Hinit) as Hc.
  set (n := Z.min len (kfifo_unused f)) in *.
  assert (Hl : kfifo_len (set_in (u32 (in_ f + n)) (set_data d' f))
               = kfifo_len f + n).
  { unfold kfifo_len. simpl. apply len_after_in; [lia|].
    fold (kfifo_len f). lia. }
  split; [reflexivity|]. split; [apply initialized_set_in; assumption|].
  split.
  { unfold occupancy_ok. rewrite Hl. unfold kfifo_size. simpl.
    fold (kfifo_size f). rewrite kfifo_size_capacity by assumption. lia. }
  split; [exact Hl|]. split; [reflexivity|]. split; [reflexivity|].
  apply contents_append; try assumption; lia.
Qed.

Lemma kfifo_out_peek_contents f dst len :
  initialized f -> occupancy_ok f -> 0 <= len ->
  let n := Z.min len (kfifo_len f) in
  n * esize f <= Z.of_nat (length dst) ->
  __kfifo_out_peek f dst len
  = Some (take (Z.to_nat (n * esize f)) (contents f)
          ++ drop (Z.to_nat (n * esize f)) dst, n).
Proof.
  intros Hinit Hocc Hlen n Hdst.
  pose proof (u32_range (in_ f - out f)) as Hr. fold (kfifo_len f) in Hr.
  unfold __kfifo_out_peek. fold (kfifo_len f). rewrite clamp_min. fold n.
  rewrite (kfifo_copy_out_contents f dst n 0 (out f) 0); try assumption; try lia.
  reflexivity.
Qed.

Lemma kfifo_out_contents f dst len :
  initialized f -> occupancy_ok f -> 0 <= len ->
  let n := Z.min len (kfifo_len f) in
  n * esize f <= Z.of_nat (length dst) ->
  __kfifo_out f dst len
  = Some (set_out (u32 (out f + n)) f,
          take (Z.to_nat (n * esize f)) (contents f)
          ++ drop (Z.to_nat (n * esize f)) dst, n).
Proof.
  intros Hinit Hocc Hlen n Hdst. unfold __kfifo_out.
  rewrite kfifo_out_peek_contents by assumption. reflexivity.
Qed.

Lemma occupancy_ok_set_out f n :
  initialized f -> occupancy_ok f -> 0 <= n <= kfifo_len f ->
  kfifo_len (set_out (u32 (out f + n)) f) = kfifo_len f - n /\
  occupancy_ok (set_out (u32 (out f + n)) f).
Proof.
  intros Hinit Hocc Hn.
  assert (E : kfifo_len (set_out (u32 (out f + n)) f) = kfifo_len f - n).
  { unfold kfifo_len. simpl. apply len_after_out. exact Hn. }
  split; [exact E|]. unfold occupancy_ok in *. rewrite E.
  unfold kfifo_size in *. simpl. lia.
Qed.

(** ** Sequences of calls *)

Lemma contents_empty f :
  initialized f -> occupancy_ok f -> kfifo_len f = 0 -> contents f = [].
Proof.
  intros Hinit Hocc E. destruct (contents_spec f Hinit Hocc) as [L _].
  rewrite E in L. destruct (contents f); [reflexivity|simpl in L; lia].
Qed.

Lemma enqueue_all_spec ins : forall f,
  initialized f -> occupancy_ok f ->
  Forall (source_ok (esize f)) ins ->
  exists f1 rs,
    enqueue_all f ins = Some (f1, rs) /\
    initialized f1 /\ occupancy_ok f1 /\
    esize f1 = esize f /\ mask f1 = mask f /\
    (rs = map snd ins -> contents f1 = contents f ++ concat (map fst ins)).
Proof.
  induction ins as [|[buf len] ins IH]; intros f Hinit Hocc Hall.
  - exists f, []. simpl. rewrite app_nil_r. tauto.
  - apply Forall_cons in Hall as [[Hlen Hbuf] Hall]. simpl in Hlen, Hbuf.
    pose proof (init_esize _ Hinit) as He.
    assert (Hfit : Z.min len (kfifo_unused f) * esize f
                   <= Z.of_nat (length buf)) by nia.
    destruct (kfifo_in_spec f buf len Hinit Hocc Hlen Hfit) as (d' & E & _).
    destruct (kfifo_in_contents f buf len _ _ Hinit Hocc Hlen Hfit E)
      as (_ & Hinit1 & Hocc1 & _ & Hm1 & He1 & Hc1).
    set (n := Z.min len (kfifo_unused f)) in *.
    set (f1 := set_in (u32 (in_ f + n)) (set_data d' f)) in *.
    rewrite <- He1 in Hall.
    destruct (IH f1 Hinit1 Hocc1 Hall) as (f2 & rs & E2 & Hi2 & Ho2 & He2 & Hm2 & Hc2).
    exists f2, (n :: rs). simpl. rewrite E. simpl. rewrite E2. simpl.
    split; [reflexivity|]. repeat (split; [assumption || congruence|]).
    intros [= Hn Hrs]. rewrite (Hc2 Hrs), Hc1, Hn.
    rewrite take_ge by lia. rewrite app_assoc. reflexivity.
Qed.

Lemma dequeue_all_spec outs : forall f,
  initialized f -> occupancy_ok f ->
  Forall (dest_ok (esize f)) outs ->
  exists f2 res,
    dequeue_all f outs = Some (f2, res) /\
    initialized f2 /\ occupancy_ok f2 /\
    contents f = concat (map (delivered (esize f)) res) ++ contents f2.
Proof.
  induction outs as [|[dst len] outs IH]; intros f Hinit Hocc Hall.
  - exists f, []. simpl. tauto.
  - apply Forall_cons in Hall as [[Hlen Hdst] Hall]. simpl in Hlen, Hdst.
    pose proof (init_esize _ Hinit) as He.
    pose proof (u32_range (in_ f - out f)) as Hr. fold (kfifo_len f) in Hr.
    destruct (contents_spec f Hinit Hocc) as [Lc _].
    set (n := Z.min len (kfifo_len f)).
    assert (Hfit : n * esize f <= Z.of_nat (length dst)) by (unfold n; nia).
    pose proof (kfifo_out_contents f dst len Hinit Hocc Hlen Hfit) as E.
    fold n in E.
    set (f1 := set_out (u32 (out f + n)) f) in *.
    assert (Hinit1 : initialized f1) by (apply initialized_set_out; assumption).
    destruct (occupancy_ok_set_out f n Hinit Hocc) as [_ Hocc1]; [unfold n; lia|].
    fold f1 in Hocc1.
    destruct (IH f1 Hinit1 Hocc1 Hall) as (f2 & res & E2 & Hi2 & Ho2 & Hc2).
    eexists f2, (_ :: res). simpl. rewrite E. simpl. rewrite E2. simpl.
    split; [reflexivity|]. split; [assumption|]. split; [assumption|].
    unfold delivered at 1. simpl.
    rewrite take_app_le by (rewrite length_take; unfold n; nia).
    rewrite take_take, Nat.min_id.
    change (esize f1) with (esize f) in Hc2. rewrite <- app_assoc, <- Hc2.
    unfold f1. rewrite contents_drop by (assumption || unfold n; lia).
    rewrite take_drop. reflexivity.
Qed.

(** ** Record headers *)

Lemma header_recombine n :
  Z.lor (uchar n) (Z.shiftl (uchar (Z.shiftr n 8)) 8) = n mod 2 ^ 16.
Proof.
  unfold uchar. apply Z.bits_inj'. intros i Hi.
  rewrite Z.lor_spec, Z.shiftl_spec by lia.
  rewrite !Z.testbit_mod_pow2 by lia.
  destruct (Z.ltb_spec i 8) as [H8|H8].
  - rewrite (Z.testbit_neg_r _ (i - 8)) by lia.
    destruct (Z.ltb_spec i 16); [|lia]. simpl.
    rewrite andb_false_r. apply orb_false_r.
  - rewrite Z.shiftr_spec by lia. replace (i - 8 + 8) with i by lia. simpl.
    destruct (Z.ltb_spec (i - 8) 8), (Z.ltb_spec i 16); try lia; reflexivity.
Qed.

Section Records.
Variable f : __kfifo.
Hypothesis Hinit : initialized f.

Lemma mod_u32 x : u32 x mod (mask f + 1) = x mod (mask f + 1).
Proof using Hinit.
  destruct (u32_split x) as [q ->].
  destruct (capacity_divides f Hinit) as [t ->].
  rewrite Z.mul_assoc. apply Z_mod_plus_full.
Qed.

Lemma slot_in_range x :
  (Z.to_nat (x mod (mask f + 1)) < length (data f))%nat.
Proof using Hinit.
  pose proof (capacity_range f Hinit) as Hc.
  pose proof (init_esize _ Hinit) as He.
  pose proof (init_data _ Hinit) as Hd.
  pose proof (Z.mod_pos_bound x (mask f + 1) ltac:(lia)). nia.
Qed.

Lemma kfifo_peek_slot x :
  __KFIFO_PEEK (data f) x (mask f)
  = data f !! Z.to_nat (x mod (mask f + 1)).
Proof using Hinit. unfold __KFIFO_PEEK. rewrite land_mask by assumption. reflexivity. Qed.

Lemma kfifo_peek_is_Some x : is_Some (__KFIFO_PEEK (data f) x (mask f)).
Proof using Hinit.
  rewrite kfifo_peek_slot. apply lookup_lt_is_Some_2, slot_in_range.
Qed.

(** The header is decoded from the cell at [out & mask] and, for a two
    byte header, the cell at [(out + 1) & mask]. *)
Lemma kfifo_peek_n_spec recsize :
  recsize = 1 \/ recsize = 2 ->
  exists l h,
    data f !! Z.to_nat (Z.land (out f) (mask f)) = Some l /\
    data f !! Z.to_nat (Z.land (u32 (out f + 1)) (mask f)) = Some h /\
    __kfifo_peek_n f recsize
    = Some (if decide (recsize = 1) then l
            else u32 (Z.lor l (Z.shiftl h 8))).
Proof using Hinit.
  intros Hrec.
  destruct (kfifo_peek_is_Some (out f)) as [l Hl].
  destruct (kfifo_peek_is_Some (u32 (out f + 1))) as [h Hh].
  exists l, h. unfold __kfifo_peek_n.
  rewrite Hl, Hh. unfold __KFIFO_PEEK in Hl, Hh.
  split; [exact Hl|]. split; [exact Hh|]. simpl.
  destruct Hrec as [-> | ->]; reflexivity.
Qed.

Lemma kfifo_poke_n_spec n recsize :
  exists d,
    __kfifo_poke_n f n recsize = Some (set_data d f) /\
    length d = length (data f) /\
    forall i : nat,
      d !! i =
        if decide (recsize > 1 /\ i = Z.to_nat ((in_ f + 1) mod (mask f + 1)))
        then Some (uchar (Z.shiftr n 8))
        else if decide (i = Z.to_nat (in_ f mod (mask f + 1)))
             then Some (uchar n)
             else data f !! i.
Proof using Hinit.
  unfold __kfifo_poke_n, __KFIFO_POKE.
  rewrite !land_mask, mod_u32 by assumption.
  pose proof (slot_in_range (in_ f)) as H0.
  pose proof (slot_in_range (in_ f + 1)) as H1.
  rewrite decide_True by exact H0. simpl.
  case_decide as Hrec.
  - rewrite decide_True by (rewrite length_insert; exact H1). simpl.
    eexists. split; [reflexivity|]. split; [rewrite !length_insert; reflexivity|].
    intros i. rewrite !list_lookup_insert, !length_insert.
    repeat case_decide; try reflexivity; try lia; tauto.
  - eexists. split; [reflexivity|]. split; [rewrite !length_insert; reflexivity|].
    intros i. rewrite !list_lookup_insert.
    repeat case_decide; try reflexivity; try lia; tauto.
Qed.
End Records.

(** ** Enqueueing a record *)

Lemma initialized_set_data f d :
  initialized f -> length d = length (data f) -> initialized (set_data d f).
Proof.
  intros [H1 H2 H3 H4 H5 H6] L. constructor; simpl; try assumption.
  rewrite L. assumption.
Qed.

(** Slot [i] lies [k] slots behind index [x] on the ring. *)
Lemma ring_slot c x i k :
  0 <= i < c -> 0 <= k < c ->
  ((i - x) mod c = k <-> i = (x + k) mod c).
Proof.
  intros Hi Hk. split.
  - intros <-. rewrite Zplus_mod_idemp_r.
    replace (x + (i - x)) with i by ring. symmetry. apply Z.mod_small. lia.
  - intros ->. rewrite Zminus_mod_idemp_l.
    replace (x + k - x) with k by ring. apply Z.mod_small. lia.
Qed.

Lemma kfifo_in_r_accept f buf len recsize :
  initialized f -> occupancy_ok f -> esize f = 1 ->
  recsize = 1 \/ recsize = 2 ->
  0 <= len -> len + recsize <= kfifo_unused f ->
  len <= Z.of_nat (length buf) ->
  exists d',
    __kfifo_in_r f buf len recsize
    = Some (set_in (u32 (in_ f + len + recsize)) (set_data d' f), len) /\
    length d' = length (data f) /\
    forall i : nat,
      d' !! i =
        if decide (Z.of_nat i < mask f + 1 /\
                   (Z.of_nat i - in_ f) mod (mask f + 1) < recsize + len)
        then (record_header recsize len ++ buf)
               !! Z.to_nat ((Z.of_nat i - in_ f) mod (mask f + 1))
        else data f !! i.
Proof.
  intros Hinit Hocc E1 Hrec Hlen Hfit Hbuf.
  pose proof (kfifo_unused_eq f Hinit Hocc) as Hu.
  pose proof (u32_range (in_ f - out f)) as Hr. fold (kfifo_len f) in Hr.
  pose proof (capacity_range f Hinit) as Hc.
  rewrite kfifo_size_capacity in Hu by assumption.
  unfold __kfifo_in_r.
  assert (Hsz : size_t (len + recsize) = len + recsize).
  { unfold size_t. apply Z.mod_small. lia. }
  rewrite Hsz, decide_False by lia.
  destruct (kfifo_poke_n_spec f Hinit len recsize) as (d1 & Ep & L1 & Hpoke).
  rewrite Ep. simpl.
  assert (Hinit1 : initialized (set_data d1 f))
    by (apply initialized_set_data; assumption).
  destruct (kfifo_copy_in_spec (set_data d1 f) Hinit1 buf len
              (u32 (in_ f + recsize))) as (d2 & Ec & L2 & Hcopy).
  { simpl. lia. }
  { simpl. lia. }
  rewrite Ec. simpl. exists d2. split; [reflexivity|].
  split; [simpl in L2; congruence|].
  intros i. rewrite Hcopy. unfold byte_size. simpl. rewrite E1, !Z.mul_1_r.
  rewrite Hpoke. set (c := mask f + 1) in *.
  destruct (decide (Z.of_nat i < c)) as [Hi|Hi].
  - set (r := (Z.of_nat i - in_ f) mod c).
    assert (Hrr : 0 <= r < c) by (apply Z.mod_pos_bound; lia).
    assert (Hshift : (Z.of_nat i - u32 (in_ f + recsize)) mod c
                     = if decide (recsize <= r) then r - recsize
                       else r - recsize + c).
    { rewrite <- Zminus_mod_idemp_r. unfold c. rewrite mod_u32 by assumption.
      fold c. rewrite Zminus_mod_idemp_r.
      replace (Z.of_nat i - (in_ f + recsize))
        with (Z.of_nat i - in_ f - recsize) by ring.
      rewrite <- Zminus_mod_idemp_l. fold r. apply ring_sub; lia. }
    assert (H0 : i = Z.to_nat (in_ f mod c) <-> r = 0).
    { pose proof (ring_slot c (in_ f) (Z.of_nat i) 0 ltac:(lia) ltac:(lia)) as Hs.
      rewrite Z.add_0_r in Hs. fold r in Hs.
      pose proof (Z.mod_pos_bound (in_ f) c ltac:(lia)). lia. }
    assert (H1 : i = Z.to_nat ((in_ f + 1) mod c) <-> r = 1).
    { pose proof (ring_slot c (in_ f) (Z.of_nat i) 1 ltac:(lia) ltac:(lia)) as Hs.
      fold r in Hs.
      pose proof (Z.mod_pos_bound (in_ f + 1) c ltac:(lia)). lia. }
    rewrite Hshift. clearbody r. unfold record_header.
    destruct Hrec as [-> | ->].
    + rewrite (decide_False (P := 1 > 1)) by lia.
      repeat case_decide; try lia;
        first [ reflexivity
              | replace r with 0 by lia; reflexivity
              | rewrite lookup_app_r by (cbn [length]; lia);
                f_equal; cbn [length]; lia ].
    + rewrite (decide_True (P := 2 > 1)) by lia.
      repeat case_decide; try lia;
        first [ reflexivity
              | replace r with 0 by lia; reflexivity
              | replace r with 1 by lia; reflexivity
              | rewrite lookup_app_r by (cbn [length]; lia);
                f_equal; cbn [length]; lia ].
  - pose proof (Z.mod_pos_bound (in_ f) c ltac:(lia)).
    pose proof (Z.mod_pos_bound (in_ f + 1) c ltac:(lia)).
    repeat case_decide; try lia; reflexivity.
Qed.

Lemma record_header_length recsize len :
  recsize = 1 \/ recsize = 2 ->
  Z.of_nat (length (record_header recsize len)) = recsize.
Proof. intros [-> | ->]; reflexivity. Qed.

Lemma kfifo_in_r_contents f d' buf len recsize :
  initialized f -> occupancy_ok f -> esize f = 1 ->
  recsize = 1 \/ recsize = 2 ->
  0 <= len -> len + recsize <= kfifo_unused f ->
  len <= Z.of_nat (length buf) ->
  length d' = length (data f) ->
  (forall i : nat,
     d' !! i =
       if decide (Z.of_nat i < mask f + 1 /\
                  (Z.of_nat i - in_ f) mod (mask f + 1) < recsize + len)
       then (record_header recsize len ++ buf)
              !! Z.to_nat ((Z.of_nat i - in_ f) mod (mask f + 1))
       else data f !! i) ->
  contents (set_in (u32 (in_ f + len + recsize)) (set_data d' f))
  = contents f ++ record_header recsize len ++ take (Z.to_nat len) buf.
Proof.
  intros Hinit Hocc E1 Hrec Hlen Hfit Hbuf L Hlook.
  pose proof (kfifo_unused_eq f Hinit Hocc) as Hu.
  rewrite kfifo_size_capacity in Hu by assumption.
  pose proof (record_header_length recsize len Hrec) as Lh.
  replace (in_ f + len + recsize) with (in_ f + (recsize + len)) by ring.
  rewrite (contents_append f d' (record_header recsize len ++ buf));
    try assumption; try lia.
  - f_equal. rewrite E1, Z.mul_1_r.
    rewrite take_app_ge by lia. f_equal. f_equal. lia.
  - rewrite length_app. lia.
  - intros i. rewrite Hlook. unfold byte_size. rewrite E1, !Z.mul_1_r.
    reflexivity.
Qed.

(** ** Initialization *)

Lemma rounddown_pow_of_two_range n : 0 <= rounddown_pow_of_two n < 2 ^ 31.
Proof.
  unfold rounddown_pow_of_two. cbv zeta.
  match goal with |- context [u32 ?x] => generalize x end.
  intros x. pose proof (u32_range x) as Hx.
  rewrite Z.shiftr_div_pow2 by lia. change (2 ^ 1) with 2. split.
  - apply Z.div_pos; lia.
  - apply Z.div_lt_upper_bound; lia.
Qed.

(** What [__kfifo_init] returns, by the capacity it computes. *)
Lemma kfifo_init_spec f buffer size esize :
  0 < esize < 2 ^ 64 -> 0 <= size < 2 ^ 32 ->
  let cap := rounddown_pow_of_two (u32 (size / esize)) in
  (cap < 2 ->
   __kfifo_init f buffer size esize
   = Some (Kfifo 0 0 0 (u32 esize) buffer, - EINVAL)) /\
  (2 <= cap ->
   __kfifo_init f buffer size esize
   = Some (Kfifo 0 0 (cap - 1) esize buffer, 0)).
Proof.
  intros He Hs cap. unfold __kfifo_init. fold cap.
  rewrite decide_False by lia. split; intros Hcap.
  - rewrite decide_True by assumption. reflexivity.
  - rewrite decide_False by lia.
    pose proof (rounddown_pow_of_two_range (u32 (size / esize))) as Hr.
    fold cap in Hr.
    assert (Hq : size / esize <> 0).
    { intros E. unfold cap in Hcap. rewrite E in Hcap.
      change (rounddown_pow_of_two (u32 0)) with 0 in Hcap. lia. }
    assert (esize <= size).
    { destruct (Z_lt_dec size esize) as [Hlt|]; [|lia].
      exfalso. apply Hq. apply Z.div_small. lia. }
    unfold set_mask, set_data, set_esize, set_out, set_in. simpl.
    rewrite (u32_small (cap - 1)), (u32_small esize) by lia. reflexivity.
Qed.

(** A successful [__kfifo_init] over a buffer of at least [size] bytes
    yields an initialized, empty fifo. *)
Lemma kfifo_init_initialized f0 buffer size esize f :
  0 < esize < 2 ^ 64 -> 0 <= size < 2 ^ 32 ->
  size <= Z.of_nat (length buffer) ->
  __kfifo_init f0 buffer size esize = Some (f, 0) ->
  initialized f /\ occupancy_ok f /\ kfifo_len f = 0.
Proof.
  intros He Hs Hbuf Hrun.
  destruct (kfifo_init_spec f0 buffer size esize He Hs) as [Hfail Hok].
  set (cap := rounddown_pow_of_two (u32 (size / esize))) in *.
  destruct (Z_lt_dec cap 2) as [Hlt|Hge].
  { rewrite (Hfail Hlt) in Hrun. discriminate. }
  rewrite Hok in Hrun by lia. injection Hrun as <-.
  assert (Hq0 : 0 <= size / esize) by (apply Z.div_pos; lia).
  assert (Hqs : size / esize <= size).
  { apply Z.div_le_upper_bound; nia. }
  assert (Hu : u32 (size / esize) = size / esize) by (apply u32_small; lia).
  assert (Hq : 1 <= size / esize < 2 ^ 31).
  { split.
    - destruct (Z_lt_dec (size / esize) 1) as [Hlt|]; [|lia].
      exfalso. assert (E : size / esize = 0) by lia.
      unfold cap in Hge. rewrite E in Hge.
      change (rounddown_pow_of_two (u32 0)) with 0 in Hge. lia.
    - destruct (Z_lt_dec (size / esize) (2 ^ 31)) as [|Hhi]; [assumption|].
      exfalso. unfold cap in Hge. rewrite Hu in Hge.
      rewrite rounddown_pow_of_two_high in Hge by lia. lia. }
  destruct (rounddown_pow_of_two_spec (size / esize) Hq) as [Ecap Hcap].
  rewrite <- Hu in Ecap, Hcap. fold cap in Ecap, Hcap.
  pose proof (Z.mul_div_le size esize ltac:(lia)) as Hmul.
  assert (Hbytes : cap * esize <= size) by nia.
  split; [|split].
  - constructor; simpl; try lia.
    exists (Z.log2 (u32 (size / esize))). split.
    + pose proof (Z.log2_nonneg (u32 (size / esize))) as Hl.
      destruct (Z.eq_dec (Z.log2 (u32 (size / esize))) 0) as [E0|]; [|lia].
      rewrite E0 in Ecap. change (2 ^ 0) with 1 in Ecap. lia.
    + lia.
  - unfold occupancy_ok, kfifo_len, kfifo_size. simpl.
    change (u32 (0 - 0)) with 0. pose proof (u32_range (cap - 1 + 1)). lia.
  - reflexivity.
Qed.

(** ** The public operations as a transition system *)

Lemma kfifo_copy_in_inv f src len off f' :
  kfifo_copy_in f src len off = Some f' ->
  exists d, f' = set_data d f /\ length d = length (data f).
Proof.
  unfold kfifo_copy_in.
  destruct (decide (esize f <> 1)); cbv zeta beta iota;
    (destruct (memcpy (data f) _ src 0 _) as [d1|] eqn:E1; [|discriminate]);
    simpl;
    (destruct (memcpy d1 0 src _ _) as [d2|] eqn:E2; [|discriminate]);
    simpl; intros [= <-]; exists d2; (split; [reflexivity|]);
    rewrite (memcpy_length _ _ _ _ _ _ E2);
    apply (memcpy_length _ _ _ _ _ _ E1).
Qed.

Lemma occupancy_ok_set_in f d n :
  initialized f -> occupancy_ok f ->
  0 <= n -> n <= kfifo_unused f ->
  occupancy_ok (set_in (u32 (in_ f + n)) (set_data d f)).
Proof.
  intros Hinit Hocc Hn Hfit.
  pose proof (kfifo_unused_eq f Hinit Hocc) as Hu.
  pose proof (u32_range (in_ f - out f)) as Hr. fold (kfifo_len f) in Hr.
  pose proof (capacity_range f Hinit) as Hc.
  rewrite kfifo_size_capacity in Hu by assumption.
  unfold occupancy_ok, kfifo_len, kfifo_size. simpl.
  rewrite len_after_in by (fold (kfifo_len f); lia).
  fold (kfifo_len f) (kfifo_size f).
  rewrite kfifo_size_capacity by assumption. lia.
Qed.

Lemma step_preserves o f f' :
  initialized f -> occupancy_ok f -> args_ok o -> guarded o f ->
  step o f = Some f' -> initialized f' /\ occupancy_ok f'.
Proof.
  intros Hinit Hocc Hargs Hguard Hstep.
  pose proof (u32_range (in_ f - out f)) as Hr. fold (kfifo_len f) in Hr.
  pose proof (u32_range (u32 (mask f + 1) - u32 (in_ f - out f))) as Hur.
  fold (kfifo_unused f) in Hur.
  destruct o as [buf len|buf len|buf len|buf len recsize|buf len recsize
                |buf len recsize|recsize|recsize| |]; simpl in *.
  - (* enqueue *)
    unfold __kfifo_in in Hstep. rewrite clamp_min in Hstep.
    destruct (kfifo_copy_in f buf _ (in_ f)) as [f1|] eqn:E; [|discriminate].
    destruct (kfifo_copy_in_inv _ _ _ _ _ E) as (d & -> & L).
    simpl in Hstep. injection Hstep as <-. split.
    + apply initialized_set_in; assumption.
    + apply occupancy_ok_set_in; try assumption; lia.
  - (* dequeue *)
    unfold __kfifo_out, __kfifo_out_peek in Hstep.
    fold (kfifo_len f) in Hstep. rewrite clamp_min in Hstep.
    destruct (kfifo_copy_out f buf _ (out f)) as [b|]; [|discriminate].
    simpl in Hstep. injection Hstep as <-. split.
    + apply initialized_set_out; assumption.
    + apply occupancy_ok_set_out; try assumption. lia.
  - (* dequeue_peek *)
    destruct (__kfifo_out_peek f buf len); [|discriminate].
    injection Hstep as <-. tauto.
  - (* enqueue_record *)
    destruct Hargs as [Hlen Hrec].
    unfold __kfifo_in_r in Hstep.
    assert (Hsz : size_t (len + recsize) = len + recsize).
    { unfold size_t. apply Z.mod_small. lia. }
    rewrite Hsz in Hstep. case_decide as Hfit.
    { injection Hstep as <-. tauto. }
    destruct (kfifo_poke_n_spec f Hinit len recsize) as (d1 & Ep & L1 & _).
    rewrite Ep in Hstep. simpl in Hstep.
    destruct (kfifo_copy_in (set_data d1 f) buf len _) as [f2|] eqn:E;
      [|discriminate].
    destruct (kfifo_copy_in_inv _ _ _ _ _ E) as (d2 & -> & L2).
    simpl in Hstep. injection Hstep as <-.
    replace (in_ f + len + recsize) with (in_ f + (len + recsize)) by ring.
    split.
    + apply (initialized_set_in f _ d2); [assumption|].
      simpl in L2. congruence.
    + apply (occupancy_ok_set_in f d2); try assumption; lia.
  - (* dequeue_record *)
    destruct Hargs as [Hlen Hrec].
    unfold __kfifo_out_r in Hstep. case_decide as Hne.
    { injection Hstep as <-. tauto. }
    destruct Hguard as [?|(n & Hpeek & Hn & Hfit)]; [contradiction|].
    unfold kfifo_out_copy_r in Hstep. rewrite Hpeek in Hstep. simpl in Hstep.
    destruct (kfifo_copy_out f buf _ _) as [b|]; [|discriminate].
    simpl in Hstep. injection Hstep as <-.
    replace (out f + n + recsize) with (out f + (n + recsize)) by ring.
    split.
    + apply initialized_set_out; assumption.
    + apply occupancy_ok_set_out; try assumption. lia.
  - (* dequeue_record_peek *)
    destruct (__kfifo_out_peek_r f buf len recsize); [|discriminate].
    injection Hstep as <-. tauto.
  - (* peek_record_length *)
    destruct (__kfifo_len_r f recsize); [|discriminate].
    injection Hstep as <-. tauto.
  - (* skip_record *)
    destruct Hguard as (n & Hpeek & Hn & Hfit).
    unfold __kfifo_skip_r in Hstep. rewrite Hpeek in Hstep. simpl in Hstep.
    injection Hstep as <-.
    replace (out f + n + recsize) with (out f + (n + recsize)) by ring.
    split.
    + apply initialized_set_out; assumption.
    + apply occupancy_ok_set_out; try assumption. lia.
  - (* reset *)
    injection Hstep as <-. destruct Hinit as [H1 H2 H3 H4 H5 H6]. split.
    + constructor; simpl; try assumption; lia.
    + unfold occupancy_ok, kfifo_len, kfifo_size. simpl.
      change (u32 (0 - 0)) with 0. pose proof (u32_range (mask f + 1)). lia.
  - (* reset_out *)
    injection Hstep as <-. destruct Hinit as [H1 H2 H3 H4 H5 H6]. split.
    + constructor; simpl; try assumption.
    + unfold occupancy_ok, kfifo_len, kfifo_size. simpl.
      rewrite Z.sub_diag. change (u32 0) with 0.
      pose proof (u32_range (mask f + 1)). lia.
Qed.

(** ** Dequeueing a record *)

Lemma kfifo_out_copy_r_spec f dst len recsize n :
  initialized f -> occupancy_ok f -> esize f = 1 ->
  0 <= recsize -> 0 <= len ->
  __kfifo_peek_n f recsize = Some n ->
  0 <= n -> n + recsize <= kfifo_len f ->
  Z.min len n <= Z.of_nat (length dst) ->
  kfifo_out_copy_r f dst len recsize
  = Some (take (Z.to_nat (Z.min len n))
            (drop (Z.to_nat recsize) (contents f))
          ++ drop (Z.to_nat (Z.min len n)) dst,
          Z.min len n, n).
Proof.
  intros Hinit Hocc E1 Hrec Hlen Hpeek Hn Hfit Hdst.
  unfold kfifo_out_copy_r. rewrite Hpeek. simpl. rewrite clamp_min.
  destruct (u32_split (out f + recsize)) as [q Hq].
  rewrite (kfifo_copy_out_contents f dst _ recsize _ q Hinit Hocc Hq)
    by (rewrite ?E1; lia).
  rewrite E1, !Z.mul_1_r. reflexivity.
Qed.

Lemma header_fits_nonempty f recsize :
  0 < recsize -> header_fits f recsize -> in_ f <> out f.
Proof.
  intros Hrec (n & _ & Hn & Hfit) E. unfold kfifo_len in Hfit.
  rewrite E, Z.sub_diag in Hfit. change (u32 0) with 0 in Hfit. lia.
Qed.

Lemma kfifo_out_r_spec f dst len recsize n :
  initialized f -> occupancy_ok f -> esize f = 1 ->
  0 < recsize -> 0 <= len ->
  __kfifo_peek_n f recsize = Some n ->
  0 <= n -> n + recsize <= kfifo_len f ->
  Z.min len n <= Z.of_nat (length dst) ->
  __kfifo_out_r f dst len recsize
  = Some (set_out (u32 (out f + n + recsize)) f,
          take (Z.to_nat (Z.min len n))
            (drop (Z.to_nat recsize) (contents f))
          ++ drop (Z.to_nat (Z.min len n)) dst,
          Z.min len n).
Proof.
  intros Hinit Hocc E1 Hrec Hlen Hpeek Hn Hfit Hdst.
  unfold __kfifo_out_r.
  rewrite decide_False
    by (apply (header_fits_nonempty f recsize); [lia|exists n; tauto]).
  rewrite (kfifo_out_copy_r_spec f dst len recsize n) by (assumption || lia).
  reflexivity.
Qed.

(** ** The operations are defined on adequate buffers *)

Lemma step_total o f :
  initialized f -> occupancy_ok f -> args_ok o -> buffers_ok o f ->
  is_Some (step o f).
Proof.
  intros Hinit Hocc Hargs Hbuf.
  destruct o as [buf len|buf len|buf len|buf len recsize|buf len recsize
                |buf len recsize|recsize|recsize| |]; simpl in *.
  - destruct (kfifo_in_spec f buf len Hinit Hocc) as (d & E & _);
      [lia|assumption|]. rewrite E. simpl. eexists. reflexivity.
  - rewrite kfifo_out_contents by (assumption || lia). eexists. reflexivity.
  - rewrite kfifo_out_peek_contents by (assumption || lia).
    eexists. reflexivity.
  - destruct Hargs as [Hlen Hrec]. destruct Hbuf as [E1 Hb].
    destruct (Z_le_dec (len + recsize) (kfifo_unused f)) as [Hfit|Hfull].
    + destruct (kfifo_in_r_accept f buf len recsize) as (d & E & _);
        try assumption; try lia.
      rewrite E. eexists. reflexivity.
    + unfold __kfifo_in_r.
      assert (Hsz : size_t (len + recsize) = len + recsize).
      { unfold size_t. apply Z.mod_small. lia. }
      rewrite Hsz, decide_True by lia. eexists. reflexivity.
  - destruct Hargs as [Hlen Hrec].
    destruct Hbuf as (E1 & Hb & Hhdr).
    destruct (decide (in_ f = out f)) as [He|Hne].
    + unfold __kfifo_out_r. rewrite decide_True by assumption.
      eexists. reflexivity.
    + destruct Hhdr as [?|(n & Hpeek & Hn & Hfit)]; [contradiction|].
      rewrite (kfifo_out_r_spec f buf len recsize n) by (assumption || lia).
      eexists. reflexivity.
  - destruct Hargs as [Hlen Hrec].
    destruct Hbuf as (E1 & Hb & Hhdr).
    unfold __kfifo_out_peek_r.
    destruct (decide (in_ f = out f)) as [He|Hne].
    + eexists. reflexivity.
    + destruct Hhdr as [?|(n & Hpeek & Hn & Hfit)]; [contradiction|].
      rewrite (kfifo_out_copy_r_spec f buf len recsize n)
        by (assumption || lia).
      eexists. reflexivity.
  - destruct (kfifo_peek_n_spec f Hinit recsize Hargs) as (l & h & _ & _ & E).
    unfold __kfifo_len_r. rewrite E. eexists. reflexivity.
  - destruct (kfifo_peek_n_spec f Hinit recsize Hargs) as (l & h & _ & _ & E).
    unfold __kfifo_skip_r. rewrite E. eexists. reflexivity.
  - eexists. reflexivity.
  - eexists. reflexivity.
Qed.

(** ** Headers read back *)

Lemma header_value l h :
  0 <= l < 2 ^ 8 -> 0 <= h < 2 ^ 8 ->
  Z.lor l (Z.shiftl h 8) = l + 2 ^ 8 * h.
Proof.
  intros Hl Hh. pose proof (header_recombine (l + 2 ^ 8 * h)) as H.
  unfold uchar in H.
  assert (E1 : (l + 2 ^ 8 * h) mod 2 ^ 8 = l).
  { replace (l + 2 ^ 8 * h) with (l + h * 2 ^ 8) by ring.
    rewrite Z_mod_plus_full. apply Z.mod_small. lia. }
  assert (E2 : Z.shiftr (l + 2 ^ 8 * h) 8 = h).
  { rewrite Z.shiftr_div_pow2 by lia.
    replace (l + 2 ^ 8 * h) with (h * 2 ^ 8 + l) by ring.
    rewrite Z.div_add_l by lia.
    rewrite (Z.div_small l) by lia. lia. }
  rewrite E1, E2, (Z.mod_small h) in H by lia. rewrite H.
  apply Z.mod_small. lia.
Qed.

Lemma bytes_ok_lookup d (i : nat) b :
  bytes_ok d -> d !! i = Some b -> 0 <= b < 2 ^ 8.
Proof.
  intros Hd Hb. unfold bytes_ok in Hd. rewrite Forall_lookup in Hd.
  exact (Hd i b Hb).
Qed.

(** The header that [__kfifo_in_r] has stored, decoded when the read index
    has come to the record. *)
Lemma kfifo_in_r_header f d' buf len recsize :
  initialized f -> recsize = 1 \/ recsize = 2 -> 0 <= len ->
  length d' = length (data f) ->
  (forall i : nat,
     d' !! i =
       if decide (Z.of_nat i < mask f + 1 /\
                  (Z.of_nat i - in_ f) mod (mask f + 1) < recsize + len)
       then (record_header recsize len ++ buf)
              !! Z.to_nat ((Z.of_nat i - in_ f) mod (mask f + 1))
       else data f !! i) ->
  __kfifo_peek_n
    (set_out (in_ f) (set_in (u32 (in_ f + len + recsize)) (set_data d' f)))
    recsize
  = Some (len mod 2 ^ (8 * recsize)).
Proof.
  intros Hinit Hrec Hlen L Hlook.
  pose proof (capacity_range f Hinit) as Hc.
  set (f' := set_out (in_ f) (set_in _ (set_data d' f))).
  assert (Hinit' : initialized f').
  { destruct Hinit as [H1 H2 H3 H4 H5 H6]. constructor; simpl; try assumption.
    - apply u32_range.
    - rewrite L. assumption. }
  destruct (kfifo_peek_n_spec f' Hinit' recsize Hrec) as (l & h & Hl & Hh & E).
  rewrite E. f_equal.
  change (data f') with d' in *. change (out f') with (in_ f) in *.
  change (mask f') with (mask f) in *. clear E Hinit'.
  rewrite land_mask in Hl, Hh by assumption. rewrite mod_u32 in Hh by assumption.
  set (c := mask f + 1) in *.
  pose proof (Z.mod_pos_bound (in_ f) c ltac:(lia)) as B0.
  pose proof (Z.mod_pos_bound (in_ f + 1) c ltac:(lia)) as B1.
  assert (S0 : (in_ f mod c - in_ f) mod c = 0).
  { apply ring_slot; try lia. rewrite Z.add_0_r. reflexivity. }
  assert (S1 : ((in_ f + 1) mod c - in_ f) mod c = 1).
  { apply ring_slot; try lia. }
  rewrite Hlook in Hl, Hh. rewrite Z2Nat.id in Hl, Hh by lia.
  rewrite S0 in Hl. rewrite S1 in Hh.
  rewrite decide_True in Hl by lia.
  destruct Hrec as [-> | ->].
  - simpl in Hl. injection Hl as <-. reflexivity.
  - rewrite decide_True in Hh by lia.
    simpl in Hl, Hh. injection Hl as <-. injection Hh as <-.
    rewrite header_recombine. change (8 * 2) with 16.
    apply u32_small. pose proof (Z.mod_pos_bound len (2 ^ 16) ltac:(lia)). lia.
Qed.

Lemma kfifo_max_r_eq len recsize :
  recsize = 1 \/ recsize = 2 -> 0 <= len ->
  __kfifo_max_r len recsize = Some (Z.min len (2 ^ (8 * recsize) - 1)).
Proof.
  intros [-> | ->] Hlen; unfold __kfifo_max_r.
  - change (size_t (Z.shiftl 1 3)) with 8.
    change (u32 (Z.shiftl 1 8 - 1)) with 255.
    change (2 ^ (8 * 1) - 1) with 255.
    rewrite decide_True by lia. case_decide; f_equal; lia.
  - change (size_t (Z.shiftl 2 3)) with 16.
    change (u32 (Z.shiftl 1 16 - 1)) with 65535.
    change (2 ^ (8 * 2) - 1) with 65535.
    rewrite decide_True by lia. case_decide; f_equal; lia.
Qed.

(** The largest power of two below [n], for [n] below [2^31]. *)
Lemma rounddown_pow_of_two_largest n j :
  1 <= n < 2 ^ 31 -> 0 <= j -> 2 ^ j <= n ->
  2 ^ j <= rounddown_pow_of_two n.
Proof.
  intros Hn Hj Hle.
  destruct (rounddown_pow_of_two_spec n Hn) as [E [_ Hhi]].
  rewrite E in *. pose proof (Z.log2_nonneg n).
  apply Z.pow_le_mono_r; [lia|].
  destruct (Z_le_dec j (Z.log2 n)) as [|Hgt]; [assumption|exfalso].
  assert (2 ^ (Z.log2 n + 1) <= 2 ^ j) by (apply Z.pow_le_mono_r; lia).
  rewrite Z.pow_add_r in * by lia. lia.
Qed.

(** ** The scenarios of the specification, run on the embedding *)

(** Scenario A: byte mode, capacity 8. *)
Example scenario_A :
  let f1 := Kfifo 5 0 7 1 [65; 66; 67; 68; 69; 0; 0; 0] in
  let f2 := Kfifo 8 0 7 1 [65; 66; 67; 68; 69; 70; 71; 72] in
  let f3 := Kfifo 8 4 7 1 [65; 66; 67; 68; 69; 70; 71; 72] in
  let f4 := Kfifo 10 4 7 1 [88; 89; 67; 68; 69; 70; 71; 72] in
  __kfifo_in fifo8_fresh [65; 66; 67; 68; 69] 5 = Some (f1, 5) /\
  kfifo_len f1 = 5 /\ kfifo_unused f1 = 3 /\
  __kfifo_in f1 [70; 71; 72; 73; 74] 5 = Some (f2, 3) /\
  kfifo_len f2 = 8 /\ kfifo_is_full f2 = true /\
  __kfifo_out f2 [0; 0; 0; 0] 4 = Some (f3, [65; 66; 67; 68], 4) /\
  kfifo_len f3 = 4 /\
  __kfifo_in f3 [88; 89] 2 = Some (f4, 2) /\
  kfifo_len f4 = 6.
Proof. vm_compute. repeat split; reflexivity. Qed.

(** Scenario B: record mode, one byte header, capacity 8. *)
Example scenario_B :
  let f2 := Kfifo 3 3 7 1 [2; 65; 66; 0; 0; 0; 0; 0] in
  __kfifo_in_r fifo8_fresh [65; 66] 2 1 = Some (fifo8_AB, 2) /\
  kfifo_len fifo8_AB = 3 /\
  __kfifo_len_r fifo8_AB 1 = Some 2 /\
  __kfifo_out_r fifo8_AB [0] 1 1 = Some (f2, [65], 1) /\
  kfifo_len f2 = 0.
Proof. vm_compute. repeat split; reflexivity. Qed.

(** A transfer that wraps: two producer calls on [fifo8], whose write index
    is 6, then two consumer calls. *)
Example wrapping_round_trip :
  enqueue_all fifo8 [([65; 66; 67], 3); ([68; 69], 2)]
  = Some (Kfifo 11 6 7 1 [67; 68; 69; 0; 0; 0; 65; 66], [3; 2]) /\
  dequeue_all (Kfifo 11 6 7 1 [67; 68; 69; 0; 0; 0; 65; 66])
    [([0; 0; 0; 0], 4); ([0; 0], 2)]
  = Some (Kfifo 11 11 7 1 [67; 68; 69; 0; 0; 0; 65; 66],
          [([65; 66; 67; 68], 4); ([69; 0], 1)]).
Proof. vm_compute. split; reflexivity. Qed.

(** ** The queued bytes, read off the storage *)

Lemma contents_queued f :
  initialized f -> occupancy_ok f -> contents f = queued f.
Proof.
  intros Hinit Hocc. destruct (contents_spec f Hinit Hocc) as [Lc Hc0].
  pose proof (byte_size_range f Hinit) as Hb.
  pose proof (init_data _ Hinit) as Hd. fold (byte_size f) in Hd.
  apply list_eq_lookup_lt.
  { unfold queued. rewrite length_fmap, length_seq. lia. }
  intros i Hi. rewrite Hc0 by lia. unfold queued.
  rewrite list_lookup_fmap, lookup_seq_lt by lia. simpl.
  rewrite land_mask, byte_offset, Zplus_mod_idemp_l by assumption.
  set (j := (out f * esize f + Z.of_nat i) mod byte_size f).
  assert (Hj : 0 <= j < byte_size f) by (apply Z.mod_pos_bound; lia).
  destruct (lookup_lt_is_Some_2 (data f) (Z.to_nat j)) as [x Hx]; [lia|].
  rewrite Hx. reflexivity.
Qed.

Lemma requested_nonneg es cs : Forall (dest_ok es) cs -> 0 <= requested cs.
Proof.
  induction 1 as [|c cs [Hc _] _ IH]; simpl; lia.
Qed.

Lemma source_dest_ok es cs : Forall (source_ok es) cs -> Forall (dest_ok es) cs.
Proof.
  intros H. eapply Forall_impl; [exact H|].
  intros c [H1 H2]. split; [exact H1|lia].
Qed.

(** Producer calls that together fit the unused slots are all accepted in
    full. *)
Lemma enqueue_all_accepts ins : forall f,
  initialized f -> occupancy_ok f ->
  Forall (source_ok (esize f)) ins ->
  requested ins <= kfifo_unused f ->
  exists f1,
    enqueue_all f ins = Some (f1, map snd ins) /\
    kfifo_len f1 = kfifo_len f + requested ins.
Proof.
  induction ins as [|[buf len] ins IH]; intros f Hinit Hocc Hall Hfit.
  - exists f. simpl. split; [reflexivity|lia].
  - pose proof (requested_nonneg _ _ (source_dest_ok _ _ Hall)) as Hnn.
    apply Forall_cons in Hall as [[Hlen Hbuf] Hall]. simpl in Hlen, Hbuf.
    pose proof (requested_nonneg _ _ (source_dest_ok _ _ Hall)) as Hnn'.
    simpl in Hfit, Hnn.
    assert (Hmin : Z.min len (kfifo_unused f) = len) by lia.
    assert (Hsrc : Z.min len (kfifo_unused f) * esize f
                   <= Z.of_nat (length buf)) by (rewrite Hmin; lia).
    destruct (kfifo_in_spec f buf len Hinit Hocc Hlen Hsrc) as (d' & E & _).
    destruct (kfifo_in_contents f buf len _ _ Hinit Hocc Hlen Hsrc E)
      as (_ & Hi1 & Ho1 & Hl1 & Hm1 & He1 & _).
    rewrite Hmin in E, Hi1, Ho1, Hl1, Hm1, He1.
    set (f1 := set_in (u32 (in_ f + len)) (set_data d' f)) in *.
    rewrite <- He1 in Hall.
    destruct (IH f1 Hi1 Ho1 Hall) as (f2 & E2 & Hl2).
    { pose proof (kfifo_unused_eq f Hinit Hocc) as U.
      pose proof (kfifo_unused_eq f1 Hi1 Ho1) as U1.
      change (kfifo_size f1) with (kfifo_size f) in U1. lia. }
    exists f2. simpl. rewrite E. simpl. rewrite E2. simpl.
    split; [reflexivity|lia].
Qed.

(** Consumer calls take what they ask for until nothing is queued. *)
Lemma dequeue_all_len outs : forall f,
  initialized f -> occupancy_ok f ->
  Forall (dest_ok (esize f)) outs ->
  exists f2 res,
    dequeue_all f outs = Some (f2, res) /\
    kfifo_len f2 = Z.max 0 (kfifo_len f - requested outs).
Proof.
  induction outs as [|[dst len] outs IH]; intros f Hinit Hocc Hall.
  - exists f, []. simpl. split; [reflexivity|].
    pose proof (u32_range (in_ f - out f)) as Hr. fold (kfifo_len f) in Hr.
    lia.
  - apply Forall_cons in Hall as [[Hlen Hdst] Hall]. simpl in Hlen, Hdst.
    pose proof (requested_nonneg _ _ Hall) as Hnn.
    pose proof (init_esize _ Hinit) as He.
    pose proof (u32_range (in_ f - out f)) as Hr. fold (kfifo_len f) in Hr.
    set (n := Z.min len (kfifo_len f)).
    assert (Hfit : n * esize f <= Z.of_nat (length dst)) by (unfold n; nia).
    pose proof (kfifo_out_contents f dst len Hinit Hocc Hlen Hfit) as E.
    fold n in E.
    set (f1 := set_out (u32 (out f + n)) f) in *.
    assert (Hi1 : initialized f1) by (apply initialized_set_out; assumption).
    destruct (occupancy_ok_set_out f n Hinit Hocc) as [Hl1 Ho1];
      [unfold n; lia|].
    fold f1 in Hl1, Ho1.
    destruct (IH f1 Hi1 Ho1 Hall) as (f2 & res & E2 & Hl2).
    eexists f2, _. simpl. rewrite E. simpl. rewrite E2. simpl.
    split; [reflexivity|]. unfold n in *. lia.
Qed.

(** ** Initialization by element count *)

Lemma kfifo_init_count_spec f0 buffer size esize :
  0 < esize < 2 ^ 64 -> 0 <= size < 2 ^ 32 ->
  (2 <= size / esize < 2 ^ 31 ->
   exists k, 1 <= k <= 30 /\ 2 ^ k <= size / esize < 2 ^ (k + 1) /\
     __kfifo_init f0 buffer size esize
     = Some (Kfifo 0 0 (2 ^ k - 1) esize buffer, 0)) /\
  (size / esize < 2 \/ 2 ^ 31 <= size / esize ->
   __kfifo_init f0 buffer size esize
   = Some (Kfifo 0 0 0 (u32 esize) buffer, - EINVAL)).
Proof.
  intros He Hs.
  destruct (kfifo_init_spec f0 buffer size esize He Hs) as [Hfail Hok].
  assert (Hq0 : 0 <= size / esize) by (apply Z.div_pos; lia).
  assert (Hqs : size / esize <= size) by (apply Z.div_le_upper_bound; nia).
  assert (Hu : u32 (size / esize) = size / esize) by (apply u32_small; lia).
  rewrite Hu in Hfail, Hok. split.
  - intros Hq.
    destruct (rounddown_pow_of_two_spec (size / esize) ltac:(lia))
      as [E [Hlo Hhi]].
    pose proof (Z.log2_nonneg (size / esize)) as Hl0.
    assert (Hl : Z.log2 (size / esize) < 31) by (apply Z.log2_lt_pow2; lia).
    assert (Hk1 : 1 <= Z.log2 (size / esize)).
    { apply Z.log2_le_pow2; simpl; lia. }
    exists (Z.log2 (size / esize)). split; [lia|]. split.
    + rewrite Z.pow_add_r by lia. change (2 ^ 1) with 2. lia.
    + rewrite <- E. apply Hok.
      assert (2 ^ 1 <= 2 ^ Z.log2 (size / esize))
        by (apply Z.pow_le_mono_r; lia).
      change (2 ^ 1) with 2 in *. lia.
  - intros [Hlow|Hhigh]; apply Hfail.
    + destruct (Z.eq_dec (size / esize) 0) as [->|]; [reflexivity|].
      replace (size / esize) with 1 by lia. reflexivity.
    + rewrite rounddown_pow_of_two_high by lia. lia.
Qed.

(** * The claims *)

Lemma fifo8_initialized : initialized fifo8.
Proof.
  constructor; simpl; try lia. exists 3. split; [lia|reflexivity].
Defined.

Lemma fifo8_occupancy_ok : occupancy_ok fifo8.
Proof. unfold occupancy_ok. vm_compute. discriminate. Defined.

(** C2: on an initialized fifo, [__kfifo_in] transfers exactly
    [n = min(len, unused)] elements to the ring positions that start at
    [in & mask] (every other byte of the storage keeps its value), advances
    [in] by [n] and returns [n]; [__kfifo_out] transfers exactly
    [m = min(len, occupancy)] elements read from the ring positions that
    start at [out & mask] (the rest of the destination keeps its value),
    advances [out] by [m] and returns [m]. *)
Theorem enqueue_dequeue_transfer f src dst req_in req_out :
  initialized f -> occupancy_ok f -> 0 <= req_in -> 0 <= req_out ->
  let n := Z.min req_in (kfifo_unused f) in
  let m := Z.min req_out (kfifo_len f) in
  n * esize f <= Z.of_nat (length src) ->
  m * esize f <= Z.of_nat (length dst) ->
  (exists d',
     __kfifo_in f src req_in
     = Some (set_in (u32 (in_ f + n)) (set_data d' f), n) /\
     length d' = length (data f) /\
     forall i : nat,
       d' !! i =
         if decide (Z.of_nat i < byte_size f /\
                    (Z.of_nat i - Z.land (in_ f) (mask f) * esize f)
                      mod byte_size f < n * esize f)
         then src !! Z.to_nat ((Z.of_nat i - Z.land (in_ f) (mask f) * esize f)
                                 mod byte_size f)
         else data f !! i) /\
  (exists dst',
     __kfifo_out f dst req_out = Some (set_out (u32 (out f + m)) f, dst', m) /\
     length dst' = length dst /\
     forall i : nat,
       dst' !! i =
         if decide (Z.of_nat i < m * esize f)
         then data f !! Z.to_nat ((Z.land (out f) (mask f) * esize f + Z.of_nat i)
                                    mod byte_size f)
         else dst !! i).
Proof.
  intros Hinit Hocc Hin Hout n m Hsrc Hdst. split.
  - destruct (kfifo_in_spec f src req_in Hinit Hocc Hin Hsrc)
      as (d' & E & L & Hlook).
    exists d'. split; [exact E|]. split; [exact L|].
    intros i. rewrite Hlook, land_mask, byte_offset by assumption.
    rewrite Zminus_mod_idemp_r. reflexivity.
  - pose proof (u32_range (in_ f - out f)) as Hr. fold (kfifo_len f) in Hr.
    pose proof Hocc as Hocc1. unfold occupancy_ok in Hocc1.
    rewrite kfifo_size_capacity in Hocc1 by assumption.
    destruct (kfifo_copy_out_spec f Hinit dst m (out f))
      as (dst' & E & L & Hlook); [lia|lia|].
    exists dst'. split.
    + unfold __kfifo_out, __kfifo_out_peek. fold (kfifo_len f).
      rewrite clamp_min. fold m. rewrite E. reflexivity.
    + split; [exact L|]. intros i.
      rewrite Hlook, land_mask, byte_offset by assumption.
      rewrite Zplus_mod_idemp_l. reflexivity.
Qed.

Lemma fifo8_wrapped_initialized : initialized fifo8_wrapped.
Proof.
  constructor; simpl; try lia. exists 3. split; [lia|reflexivity].
Defined.

Lemma fifo8_wrapped_occupancy_ok : occupancy_ok fifo8_wrapped.
Proof. unfold occupancy_ok. vm_compute. discriminate. Defined.

Lemma enqueue_dequeue_transfer_witness :
  (exists d',
     __kfifo_in fifo8_wrapped [70; 71; 72; 73] 4
     = Some (set_in (u32 (11 + 3)) (set_data d' fifo8_wrapped), 3) /\
     length d' = 8%nat /\
     forall i : nat,
       d' !! i =
         if decide (Z.of_nat i < 8 /\ (Z.of_nat i - 3 * 1) mod 8 < 3 * 1)
         then [70; 71; 72; 73] !! Z.to_nat ((Z.of_nat i - 3 * 1) mod 8)
         else [67; 68; 69; 0; 0; 0; 65; 66] !! i) /\
  (exists dst',
     __kfifo_out fifo8_wrapped [0; 0; 0; 0] 4
     = Some (set_out (u32 (6 + 4)) fifo8_wrapped, dst', 4) /\
     length dst' = 4%nat /\
     forall i : nat,
       dst' !! i =
         if decide (Z.of_nat i < 4 * 1)
         then [67; 68; 69; 0; 0; 0; 65; 66]
                !! Z.to_nat ((6 * 1 + Z.of_nat i) mod 8)
         else [0; 0; 0; 0] !! i).
Proof.
  apply (enqueue_dequeue_transfer fifo8_wrapped [70; 71; 72; 73] [0; 0; 0; 0]
           4 4 fifo8_wrapped_initialized fifo8_wrapped_occupancy_ok);
    vm_compute; discriminate.
Defined.

(** C3: on an initialized fifo, producer calls that together fit the unused
    slots are each accepted in full, and consumer calls that together ask
    for at least what is then queued drain the fifo and deliver the bytes
    that the storage queued before followed by the bytes of the sources,
    in the order and with the values written; the transfers are the
    two-segment copies of [kfifo_copy_in] and [kfifo_copy_out], wrapping
    or not. *)
Theorem enqueue_dequeue_round_trip f ins outs :
  initialized f -> occupancy_ok f ->
  Forall (source_ok (esize f)) ins ->
  Forall (dest_ok (esize f)) outs ->
  requested ins <= kfifo_unused f ->
  kfifo_len f + requested ins <= requested outs ->
  exists f1 f2 res,
    enqueue_all f ins = Some (f1, map snd ins) /\
    dequeue_all f1 outs = Some (f2, res) /\
    kfifo_len f2 = 0 /\
    concat (map (delivered (esize f)) res)
    = queued f ++ concat (map fst ins).
Proof.
  intros Hinit Hocc Hins Houts Hfit Hdrain.
  destruct (enqueue_all_accepts ins f Hinit Hocc Hins Hfit) as (f1 & E1 & Hl1).
  destruct (enqueue_all_spec ins f Hinit Hocc Hins)
    as (f1' & rs & E1' & Hi1 & Ho1 & He1 & _ & Hc1).
  rewrite E1 in E1'. injection E1' as <- <-.
  rewrite <- He1 in Houts.
  destruct (dequeue_all_len outs f1 Hi1 Ho1 Houts) as (f2 & res & E2 & Hl2).
  destruct (dequeue_all_spec outs f1 Hi1 Ho1 Houts)
    as (f2' & res' & E2' & Hi2 & Ho2 & Hc2).
  rewrite E2 in E2'. injection E2' as <- <-.
  assert (Hempty : kfifo_len f2 = 0) by lia.
  exists f1, f2, res. split; [exact E1|]. split; [exact E2|].
  split; [exact Hempty|].
  rewrite <- (contents_queued f Hinit Hocc), <- (Hc1 eq_refl), Hc2.
  rewrite (contents_empty f2 Hi2 Ho2 Hempty), app_nil_r, He1. reflexivity.
Qed.

(** [fifo8_wrapped] queues 65 .. 69 across the end of the storage; three
    more bytes are enqueued by two calls, and two calls of four elements
    drain the eight bytes. *)
Lemma enqueue_dequeue_round_trip_witness :
  exists f1 f2 res,
    enqueue_all fifo8_wrapped [([70; 71], 2); ([72], 1)]
    = Some (f1, [2; 1]) /\
    dequeue_all f1 [([0; 0; 0; 0], 4); ([0; 0; 0; 0], 4)]
    = Some (f2, res) /\
    kfifo_len f2 = 0 /\
    concat (map (delivered 1) res)
    = [65; 66; 67; 68; 69] ++ [70; 71; 72].
Proof.
  apply (enqueue_dequeue_round_trip fifo8_wrapped
           [([70; 71], 2); ([72], 1)]
           [([0; 0; 0; 0], 4); ([0; 0; 0; 0], 4)]).
  - constructor; simpl; try lia. exists 3. split; [lia|reflexivity].
  - unfold occupancy_ok. vm_compute. discriminate.
  - repeat constructor; simpl; lia.
  - repeat constructor; simpl; lia.
  - vm_compute. discriminate.
  - vm_compute. discriminate.
Defined.

(** C4: on an initialized record-mode fifo, [__kfifo_in_r] with
    [len + recsize > unused] returns 0 and leaves the fifo as it is
    (indices, unused count and every byte of the storage); otherwise it
    stores the header bytes and the [len] payload bytes at the ring
    positions behind [in] (every other byte keeps its value), advances [in]
    by [len + recsize] in one step and returns [len]. *)
Theorem enqueue_record_all_or_nothing f buf len recsize :
  initialized f -> occupancy_ok f -> esize f = 1 ->
  recsize = 1 \/ recsize = 2 ->
  0 <= len < 2 ^ 32 ->
  (len + recsize > kfifo_unused f ->
   __kfifo_in_r f buf len recsize = Some (f, 0)) /\
  (len + recsize <= kfifo_unused f ->
   len <= Z.of_nat (length buf) ->
   exists d',
     __kfifo_in_r f buf len recsize
     = Some (set_in (u32 (in_ f + len + recsize)) (set_data d' f), len) /\
     length d' = length (data f) /\
     (forall i : nat,
        d' !! i =
          if decide (Z.of_nat i < mask f + 1 /\
                     (Z.of_nat i - in_ f) mod (mask f + 1) < recsize + len)
          then (record_header recsize len ++ buf)
                 !! Z.to_nat ((Z.of_nat i - in_ f) mod (mask f + 1))
          else data f !! i) /\
     contents (set_in (u32 (in_ f + len + recsize)) (set_data d' f))
     = contents f ++ record_header recsize len ++ take (Z.to_nat len) buf).
Proof.
  intros Hinit Hocc E1 Hrec Hlen. split.
  - intros Hfull. unfold __kfifo_in_r.
    assert (Hsz : size_t (len + recsize) = len + recsize).
    { unfold size_t. apply Z.mod_small. lia. }
    rewrite Hsz, decide_True by lia. reflexivity.
  - intros Hfit Hbuf.
    destruct (kfifo_in_r_accept f buf len recsize) as (d' & E & L & Hlook);
      try assumption; try lia.
    exists d'. split; [exact E|]. split; [exact L|]. split; [exact Hlook|].
    apply kfifo_in_r_contents; try assumption; lia.
Qed.

Lemma fifo8_fresh_initialized : initialized fifo8_fresh.
Proof.
  constructor; simpl; try lia. exists 3. split; [lia|reflexivity].
Defined.

Lemma fifo8_fresh_occupancy_ok : occupancy_ok fifo8_fresh.
Proof. unfold occupancy_ok. vm_compute. discriminate. Defined.

Lemma enqueue_record_all_or_nothing_witness :
  (2 + 1 > kfifo_unused fifo8_fresh ->
   __kfifo_in_r fifo8_fresh [65; 66] 2 1 = Some (fifo8_fresh, 0)) /\
  (2 + 1 <= kfifo_unused fifo8_fresh ->
   2 <= Z.of_nat (length [65; 66]) ->
   exists d',
     __kfifo_in_r fifo8_fresh [65; 66] 2 1
     = Some (set_in (u32 (0 + 2 + 1)) (set_data d' fifo8_fresh), 2) /\
     length d' = 8%nat /\
     (forall i : nat,
        d' !! i =
          if decide (Z.of_nat i < 7 + 1 /\ (Z.of_nat i - 0) mod (7 + 1) < 1 + 2)
          then (record_header 1 2 ++ [65; 66])
                 !! Z.to_nat ((Z.of_nat i - 0) mod (7 + 1))
          else replicate 8 0 !! i) /\
     contents (set_in (u32 (0 + 2 + 1)) (set_data d' fifo8_fresh))
     = contents fifo8_fresh ++ record_header 1 2 ++ take (Z.to_nat 2) [65; 66]).
Proof.
  apply (enqueue_record_all_or_nothing fifo8_fresh [65; 66] 2 1
           fifo8_fresh_initialized fifo8_fresh_occupancy_ok).
  - reflexivity.
  - left. reflexivity.
  - lia.
Defined.

Lemma fifo8_AB_initialized : initialized fifo8_AB.
Proof.
  constructor; simpl; try lia. exists 3. split; [lia|reflexivity].
Defined.

Lemma fifo8_AB_occupancy_ok : occupancy_ok fifo8_AB.
Proof. unfold occupancy_ok. vm_compute. discriminate. Defined.

(** C6 (amended): for a non-zero element size, when the element count
    [size / esize] is below 2, so that the capacity rounds down to fewer
    than 2 elements, [__kfifo_init] returns [-EINVAL] after it has zeroed
    both indices, recorded the element size (cut to 32 bits) and the
    buffer, and set [mask] to 0; when the count is in [2, 2^31) it sets
    [mask = capacity - 1] for the capacity [2^k], the largest power of two
    not above the count, zeroes both indices, records the element size and
    the buffer, and returns 0. *)
Theorem init_outcome f buffer size esize :
  0 < esize < 2 ^ 64 -> 0 <= size < 2 ^ 32 ->
  (size / esize < 2 ->
   __kfifo_init f buffer size esize
   = Some (Kfifo 0 0 0 (u32 esize) buffer, - EINVAL)) /\
  (2 <= size / esize < 2 ^ 31 ->
   exists k, 1 <= k <= 30 /\ 2 ^ k <= size / esize < 2 ^ (k + 1) /\
     __kfifo_init f buffer size esize
     = Some (Kfifo 0 0 (2 ^ k - 1) esize buffer, 0)).
Proof.
  intros He Hs.
  destruct (kfifo_init_count_spec f buffer size esize He Hs) as [Hok Hfail].
  split; [intros Hlow; apply Hfail; lia|exact Hok].
Qed.

(** A buffer of 10 bytes gives a capacity of 8; a buffer of 1 byte is
    refused. *)
Lemma init_outcome_witness :
  __kfifo_init fifo8_AB [0] 1 1 = Some (Kfifo 0 0 0 1 [0], - EINVAL) /\
  exists k, 1 <= k <= 30 /\ 2 ^ k <= 10 / 1 < 2 ^ (k + 1) /\
    __kfifo_init fifo8_AB (replicate 10 0) 10 1
    = Some (Kfifo 0 0 (2 ^ k - 1) 1 (replicate 10 0), 0).
Proof.
  split.
  - apply (proj1 (init_outcome fifo8_AB [0] 1 1 ltac:(lia) ltac:(lia))).
    vm_compute. reflexivity.
  - apply (proj2 (init_outcome fifo8_AB (replicate 10 0) 10 1
                    ltac:(lia) ltac:(lia))).
    vm_compute. split; [discriminate|reflexivity].
Defined.

(** C6 (as stated, refuted): a failing [__kfifo_init] does write the fifo.
    Called with a one byte buffer on a fifo that holds a record, it returns
    [-EINVAL] and leaves a fifo that differs from the one it was given. *)
Lemma init_failure_writes_fifo :
  rounddown_pow_of_two (u32 (1 / 1)) < 2 /\
  __kfifo_init fifo8_AB [0] 1 1 = Some (Kfifo 0 0 0 1 [0], - EINVAL) /\
  Kfifo 0 0 0 1 [0] <> fifo8_AB.
Proof.
  split; [reflexivity|]. split; [reflexivity|]. discriminate.
Qed.

(** C1 (amended): on an initialized fifo whose occupancy is within
    [0, capacity], every public operation called with counts in range and a
    header width of 1 or 2 leaves an initialized fifo whose occupancy is
    within [0, capacity], provided that, for [dequeue_record] on a
    non-empty fifo and for [skip_record], the header decoded at the read
    index describes a record that is queued in full
    ([n + recsize <= occupancy]); on adequate buffers the operation is
    defined. *)
Theorem occupancy_invariant o f :
  initialized f -> occupancy_ok f -> args_ok o -> guarded o f ->
  (forall f', step o f = Some f' ->
     initialized f' /\ 0 <= kfifo_len f' <= kfifo_size f') /\
  (buffers_ok o f -> is_Some (step o f)).
Proof.
  intros Hinit Hocc Hargs Hguard. split.
  - intros f' Hstep.
    destruct (step_preserves o f f' Hinit Hocc Hargs Hguard Hstep) as [Hi Ho].
    split; [exact Hi|]. split; [apply u32_range|exact Ho].
  - intros Hbuf. apply step_total; assumption.
Qed.

Lemma occupancy_invariant_witness :
  (forall f', step (SkipRecord 1) fifo8_AB = Some f' ->
     initialized f' /\ 0 <= kfifo_len f' <= kfifo_size f') /\
  (buffers_ok (SkipRecord 1) fifo8_AB -> is_Some (step (SkipRecord 1) fifo8_AB)).
Proof.
  apply (occupancy_invariant (SkipRecord 1) fifo8_AB
           fifo8_AB_initialized fifo8_AB_occupancy_ok).
  - left. reflexivity.
  - exists 2. split; [reflexivity|]. split; [lia|]. vm_compute. discriminate.
Defined.

(** C1 (as stated, refuted): [skip_record] on the freshly initialized,
    empty fifo is a public operation on a reachable state, and it leaves
    the read index one ahead of the write index: the occupancy is
    [2^32 - 1], above the capacity 8. *)
Lemma skip_record_breaks_occupancy :
  reachable fifo8_fresh /\
  step (SkipRecord 1) fifo8_fresh = Some (Kfifo 0 1 7 1 (replicate 8 0)) /\
  reachable (Kfifo 0 1 7 1 (replicate 8 0)) /\
  kfifo_len (Kfifo 0 1 7 1 (replicate 8 0)) = 2 ^ 32 - 1 /\
  kfifo_size (Kfifo 0 1 7 1 (replicate 8 0)) = 8 /\
  ~ (0 <= kfifo_len (Kfifo 0 1 7 1 (replicate 8 0))
     <= kfifo_size (Kfifo 0 1 7 1 (replicate 8 0))).
Proof.
  assert (Hr : reachable fifo8_fresh).
  { apply (reachable_init (Kfifo 0 0 0 0 []) (replicate 8 0) 8 1);
      [lia|lia|simpl; lia|reflexivity]. }
  split; [exact Hr|]. split; [reflexivity|]. split.
  { apply (reachable_step (SkipRecord 1) fifo8_fresh); [exact Hr|reflexivity]. }
  split; [reflexivity|]. split; [reflexivity|].
  vm_compute. intros [_ H]. apply H. reflexivity.
Qed.

(** The same happens without [skip_record], on a record of 256 bytes
    enqueued with a one byte header (the header stores 0): the third
    [dequeue_record] decodes a payload byte as a header and moves the read
    index 101 slots past the write index. *)
Lemma dequeue_record_breaks_occupancy :
  let payload := [100] ++ replicate 100 0 ++ [255] ++ replicate 154 0 in
  let d := [0] ++ payload ++ replicate 255 0 in
  step (EnqueueRecord payload 256 1) fifo512 = Some (Kfifo 257 0 511 1 d) /\
  step (DequeueRecord [] 0 1) (Kfifo 257 0 511 1 d)
  = Some (Kfifo 257 1 511 1 d) /\
  step (DequeueRecord [] 0 1) (Kfifo 257 1 511 1 d)
  = Some (Kfifo 257 102 511 1 d) /\
  step (DequeueRecord [] 0 1) (Kfifo 257 102 511 1 d)
  = Some (Kfifo 257 358 511 1 d) /\
  kfifo_len (Kfifo 257 358 511 1 d) = 2 ^ 32 - 101 /\
  kfifo_size (Kfifo 257 358 511 1 d) = 512.
Proof. vm_compute. repeat split; reflexivity. Qed.

(** C7 (the code departs from the claim): [__kfifo_len_r] has no test for
    an empty fifo.  After two records were enqueued and dequeued, the
    8-byte record fifo is empty with both indices at 8, and
    [__kfifo_len_r] returns the stale header 2 of the first record, not 0. *)
Theorem peek_record_length_empty_stale :
  let f := Kfifo 8 8 7 1 [2; 65; 66; 4; 1; 2; 3; 4] in
  reachable f /\ kfifo_is_empty f = true /\ __kfifo_len_r f 1 = Some 2.
Proof.
  cbv zeta. split; [|split; reflexivity].
  apply (reachable_step (DequeueRecord [0; 0; 0; 0] 4 1)
           (Kfifo 8 3 7 1 [2; 65; 66; 4; 1; 2; 3; 4])); [|reflexivity].
  apply (reachable_step (EnqueueRecord [1; 2; 3; 4] 4 1)
           (Kfifo 3 3 7 1 [2; 65; 66; 0; 0; 0; 0; 0])); [|reflexivity].
  apply (reachable_step (DequeueRecord [0; 0] 2 1)
           (Kfifo 3 0 7 1 [2; 65; 66; 0; 0; 0; 0; 0])); [|reflexivity].
  apply (reachable_step (EnqueueRecord [65; 66] 2 1) fifo8_fresh); [|reflexivity].
  apply (reachable_init (Kfifo 0 0 0 0 []) (replicate 8 0) 8 1);
    [lia|lia|simpl; lia|reflexivity].
Qed.

(** C8 (the code departs from the claim): for [n = 2^31] the increment
    after the smear wraps to 0, and [rounddown_pow_of_two] returns 0
    although [2^31] itself is a power of two that is not above [n]. *)
Theorem rounddown_pow_of_two_top_bit :
  rounddown_pow_of_two (2 ^ 31) = 0 /\ 2 ^ 31 <= 2 ^ 31 < 2 ^ 32.
Proof. split; [reflexivity|lia]. Qed.

(** C9: [__kfifo_skip_r] has no test for an empty fifo: on every
    initialized fifo it decodes [v] from the cell at [out & mask] (and, for
    a two byte header, the cell at [(out + 1) & mask]) and sets [out] to
    [out + v + recsize]; on an empty fifo the read index is then
    [v + recsize] ahead of the write index, and the occupancy
    [2^32 - (v + recsize)] is above the capacity. *)
Theorem skip_record_unchecked f recsize :
  initialized f -> recsize = 1 \/ recsize = 2 ->
  exists l h,
    data f !! Z.to_nat (Z.land (out f) (mask f)) = Some l /\
    data f !! Z.to_nat (Z.land (u32 (out f + 1)) (mask f)) = Some h /\
    let v := if decide (recsize = 1) then l
             else u32 (Z.lor l (Z.shiftl h 8)) in
    let f' := set_out (u32 (out f + v + recsize)) f in
    __kfifo_skip_r f recsize = Some f' /\
    (in_ f = out f -> bytes_ok (data f) ->
     u32 (out f' - in_ f') = v + recsize /\
     kfifo_len f' = 2 ^ 32 - (v + recsize) /\
     kfifo_size f' < kfifo_len f').
Proof.
  intros Hinit Hrec.
  destruct (kfifo_peek_n_spec f Hinit recsize Hrec) as (l & h & Hl & Hh & E).
  exists l, h. split; [exact Hl|]. split; [exact Hh|].
  cbv zeta. split.
  { unfold __kfifo_skip_r. rewrite E. reflexivity. }
  intros Hempty Hbytes.
  pose proof (bytes_ok_lookup _ _ _ Hbytes Hl) as Bl.
  pose proof (bytes_ok_lookup _ _ _ Hbytes Hh) as Bh.
  set (v := if decide (recsize = 1) then l else u32 (Z.lor l (Z.shiftl h 8))).
  assert (Hv : 0 <= v < 2 ^ 16).
  { unfold v. case_decide; [lia|].
    rewrite header_value by assumption. rewrite u32_small; lia. }
  pose proof (capacity_range f Hinit) as Hc.
  destruct (capacity_divides f Hinit) as [t Ht].
  assert (Ht2 : 2 <= t).
  { destruct (Z_le_dec 2 t) as [|Hlt]; [assumption|exfalso].
    assert (t * (mask f + 1) <= 1 * (mask f + 1))
      by (apply Z.mul_le_mono_nonneg_r; lia).
    lia. }
  assert (Hcap : mask f + 1 <= 2 ^ 31).
  { assert (2 * (mask f + 1) <= t * (mask f + 1))
      by (apply Z.mul_le_mono_nonneg_r; lia).
    lia. }
  unfold kfifo_len, kfifo_size. simpl. rewrite Hempty.
  rewrite (u32_small (mask f + 1)) by lia.
  assert (E1 : u32 (u32 (out f + v + recsize) - out f) = v + recsize).
  { unfold u32. rewrite Zminus_mod_idemp_l.
    replace (out f + v + recsize - out f) with (v + recsize) by ring.
    apply Z.mod_small. lia. }
  assert (E2 : u32 (out f - u32 (out f + v + recsize)) = 2 ^ 32 - (v + recsize)).
  { unfold u32. rewrite Zminus_mod_idemp_r.
    replace (out f - (out f + v + recsize)) with (- (v + recsize)) by ring.
    symmetry. apply (Z.mod_unique_pos _ _ (-1)); lia. }
  rewrite E1, E2. split; [reflexivity|]. split; [reflexivity|]. lia.
Qed.

Lemma skip_record_unchecked_witness :
  exists l h,
    data fifo8_fresh !! Z.to_nat (Z.land 0 7) = Some l /\
    data fifo8_fresh !! Z.to_nat (Z.land (u32 (0 + 1)) 7) = Some h /\
    let v := if decide (1 = 1) then l else u32 (Z.lor l (Z.shiftl h 8)) in
    let f' := set_out (u32 (0 + v + 1)) fifo8_fresh in
    __kfifo_skip_r fifo8_fresh 1 = Some f' /\
    (in_ fifo8_fresh = out fifo8_fresh -> bytes_ok (data fifo8_fresh) ->
     u32 (out f' - in_ f') = v + 1 /\
     kfifo_len f' = 2 ^ 32 - (v + 1) /\
     kfifo_size f' < kfifo_len f').
Proof.
  apply (skip_record_unchecked fifo8_fresh 1 fifo8_fresh_initialized).
  left. reflexivity.
Defined.

(** C10: [__kfifo_in_r] does not clamp the length: whenever
    [len + recsize <= unused] it accepts the record, queues the header and
    [len] payload bytes and returns [len]; the header it stores decodes to
    [len mod 2^(8 * recsize)] once the read index has come to the record.
    For [len] above [2^(8 * recsize) - 1] the decoded header differs from
    the [len] payload bytes written, and the result differs from what
    [__kfifo_max_r] would have clamped it to. *)
Theorem enqueue_record_unclamped f buf len recsize :
  initialized f -> occupancy_ok f -> esize f = 1 ->
  recsize = 1 \/ recsize = 2 ->
  0 <= len -> len + recsize <= kfifo_unused f ->
  len <= Z.of_nat (length buf) ->
  exists f',
    __kfifo_in_r f buf len recsize = Some (f', len) /\
    in_ f' = u32 (in_ f + len + recsize) /\
    contents f'
    = contents f ++ record_header recsize len ++ take (Z.to_nat len) buf /\
    __kfifo_peek_n (set_out (in_ f) f') recsize
    = Some (len mod 2 ^ (8 * recsize)) /\
    (len > 2 ^ (8 * recsize) - 1 ->
     len mod 2 ^ (8 * recsize) <> len /\
     __kfifo_max_r len recsize = Some (2 ^ (8 * recsize) - 1) /\
     2 ^ (8 * recsize) - 1 <> len).
Proof.
  intros Hinit Hocc E1 Hrec Hlen Hfit Hbuf.
  destruct (kfifo_in_r_accept f buf len recsize) as (d' & E & L & Hlook);
    try assumption.
  eexists. split; [exact E|]. split; [reflexivity|]. split.
  { apply kfifo_in_r_contents; assumption. }
  split.
  { apply (kfifo_in_r_header f d' buf len recsize); assumption. }
  intros Hbig.
  assert (Hpos : 0 < 2 ^ (8 * recsize)).
  { apply Z.pow_pos_nonneg; lia. }
  pose proof (Z.mod_pos_bound len (2 ^ (8 * recsize)) Hpos) as Hm.
  split; [lia|]. split; [|lia].
  rewrite kfifo_max_r_eq by assumption. f_equal. lia.
Qed.

Lemma enqueue_record_unclamped_witness :
  exists f',
    __kfifo_in_r fifo512 (replicate 300 7) 300 1 = Some (f', 300) /\
    in_ f' = u32 (0 + 300 + 1) /\
    contents f'
    = contents fifo512 ++ record_header 1 300
      ++ take (Z.to_nat 300) (replicate 300 7) /\
    __kfifo_peek_n (set_out 0 f') 1 = Some (300 mod 2 ^ (8 * 1)) /\
    (300 > 2 ^ (8 * 1) - 1 ->
     300 mod 2 ^ (8 * 1) <> 300 /\
     __kfifo_max_r 300 1 = Some (2 ^ (8 * 1) - 1) /\
     2 ^ (8 * 1) - 1 <> 300).
Proof.
  apply (enqueue_record_unclamped fifo512 (replicate 300 7) 300 1).
  - constructor; simpl; try lia. exists 9. split; [lia|reflexivity].
  - unfold occupancy_ok. vm_compute. discriminate.
  - reflexivity.
  - left. reflexivity.
  - lia.
  - vm_compute. discriminate.
  - vm_compute. discriminate.
Defined.

(** * Further properties *)

(** ** Rounding up *)

Lemma smear32_nonneg n : 0 <= n -> 0 <= smear32 n.
Proof.
  intros Hn. unfold smear32.
  repeat (apply Z.lor_nonneg; split; [|apply Z.shiftr_nonneg]); assumption.
Qed.

Lemma smear32_ones n k :
  0 <= k < 32 -> 2 ^ k <= n < 2 ^ (k + 1) -> smear32 n = Z.ones (k + 1).
Proof.
  intros Hk Hn.
  pose proof (smeared_init n k ltac:(lia) Hn) as H1.
  apply (smeared_step k ltac:(lia) 1) in H1; [|lia].
  apply (smeared_step k ltac:(lia) 2) in H1; [|lia].
  apply (smeared_step k ltac:(lia) 4) in H1; [|lia].
  apply (smeared_step k ltac:(lia) 8) in H1; [|lia].
  apply (smeared_step k ltac:(lia) 16) in H1; [|lia].
  change (2 * 1) with 2 in *. change (2 * 2) with 4 in *.
  change (2 * 4) with 8 in *. change (2 * 8) with 16 in *.
  change (2 * 16) with 32 in *.
  apply (smeared_ones k ltac:(lia)) in H1; [exact H1| |lia].
  apply (smear32_nonneg n). lia.
Qed.

Lemma roundup_smear v : roundup_pow_of_two v = u32 (smear32 (u32 (v - 1)) + 1).
Proof. reflexivity. Qed.

(** X1: for [1 <= v <= 2^31], [roundup_pow_of_two] returns the smallest
    power of two that is not below [v]. *)
Theorem roundup_pow_of_two_smallest v :
  1 <= v <= 2 ^ 31 ->
  exists k, 0 <= k <= 31 /\
    roundup_pow_of_two v = 2 ^ k /\ v <= 2 ^ k /\
    forall j, 0 <= j -> v <= 2 ^ j -> 2 ^ k <= 2 ^ j.
Proof.
  intros Hv. rewrite roundup_smear.
  rewrite (u32_small (v - 1)) by lia.
  destruct (Z.eq_dec v 1) as [->|Hne].
  { exists 0. split; [lia|]. split; [reflexivity|]. split; [simpl; lia|].
    intros j Hj _. apply Z.pow_le_mono_r; lia. }
  assert (Hn : 1 <= v - 1 < 2 ^ 31) by lia.
  pose proof (Z.log2_spec (v - 1) ltac:(lia)) as Hs.
  pose proof (Z.log2_nonneg (v - 1)) as H0.
  set (k := Z.log2 (v - 1)) in *.
  assert (Hlt : k < 31) by (apply Z.log2_lt_pow2; lia).
  replace (Z.succ k) with (k + 1) in Hs by lia.
  rewrite (smear32_ones (v - 1) k) by lia.
  rewrite Z.ones_equiv.
  replace (Z.pred (2 ^ (k + 1)) + 1) with (2 ^ (k + 1)) by lia.
  assert (Hp : 2 ^ (k + 1) <= 2 ^ 31) by (apply Z.pow_le_mono_r; lia).
  rewrite u32_small by lia.
  exists (k + 1). split; [lia|]. split; [reflexivity|]. split; [lia|].
  intros j Hj Hle. apply Z.pow_le_mono_r; [lia|].
  destruct (Z_le_dec (k + 1) j) as [|Hgt]; [assumption|exfalso].
  assert (2 ^ j <= 2 ^ k) by (apply Z.pow_le_mono_r; lia). lia.
Qed.

Lemma roundup_pow_of_two_smallest_witness :
  exists k, 0 <= k <= 31 /\
    roundup_pow_of_two 1000 = 2 ^ k /\ 1000 <= 2 ^ k /\
    forall j, 0 <= j -> 1000 <= 2 ^ j -> 2 ^ k <= 2 ^ j.
Proof. apply (roundup_pow_of_two_smallest 1000). lia. Defined.

(** X2: for [v = 0] and for [2^31 < v < 2^32] the computation wraps and
    [roundup_pow_of_two] returns 0. *)
Theorem roundup_pow_of_two_wraps v :
  v = 0 \/ 2 ^ 31 < v < 2 ^ 32 -> roundup_pow_of_two v = 0.
Proof.
  intros [->|Hv]; [reflexivity|]. rewrite roundup_smear.
  rewrite (u32_small (v - 1)) by lia.
  rewrite (smear32_ones (v - 1) 31) by (simpl; lia). reflexivity.
Qed.

Lemma roundup_pow_of_two_wraps_witness : roundup_pow_of_two (2 ^ 31 + 1) = 0.
Proof. apply (roundup_pow_of_two_wraps (2 ^ 31 + 1)). right. lia. Defined.

(** ** Rounding down *)

(** X3: for [1 <= n < 2^31], [rounddown_pow_of_two] returns the largest
    power of two that is not above [n]. *)
Theorem rounddown_pow_of_two_largest_below n :
  1 <= n < 2 ^ 31 ->
  exists k, 0 <= k <= 30 /\
    rounddown_pow_of_two n = 2 ^ k /\ 2 ^ k <= n /\
    forall j, 0 <= j -> 2 ^ j <= n -> 2 ^ j <= 2 ^ k.
Proof.
  intros Hn. destruct (rounddown_pow_of_two_spec n Hn) as [E [Hlo Hhi]].
  pose proof (Z.log2_nonneg n).
  assert (Z.log2 n < 31) by (apply Z.log2_lt_pow2; lia).
  exists (Z.log2 n). split; [lia|]. split; [exact E|].
  split; [rewrite <- E; exact Hlo|].
  intros j Hj Hle. rewrite <- E.
  apply rounddown_pow_of_two_largest; assumption.
Qed.

Lemma rounddown_pow_of_two_largest_below_witness :
  exists k, 0 <= k <= 30 /\
    rounddown_pow_of_two 1000 = 2 ^ k /\ 2 ^ k <= 1000 /\
    forall j, 0 <= j -> 2 ^ j <= 1000 -> 2 ^ j <= 2 ^ k.
Proof. apply (rounddown_pow_of_two_largest_below 1000). lia. Defined.

(** ** Initialization, continued *)

(** X4: [__kfifo_init] succeeds exactly when the element count
    [size / esize] is in [2, 2^31): it then makes an empty fifo whose
    capacity [2^k] is the largest power of two not above the count; for a
    count below 2, or of [2^31] and more, it returns [-EINVAL] with
    [mask = 0]. *)
Theorem kfifo_init_by_count f0 buffer size esize :
  0 < esize < 2 ^ 64 -> 0 <= size < 2 ^ 32 ->
  (2 <= size / esize < 2 ^ 31 ->
   exists k, 1 <= k <= 30 /\ 2 ^ k <= size / esize < 2 ^ (k + 1) /\
     __kfifo_init f0 buffer size esize
     = Some (Kfifo 0 0 (2 ^ k - 1) esize buffer, 0)) /\
  (size / esize < 2 \/ 2 ^ 31 <= size / esize ->
   __kfifo_init f0 buffer size esize
   = Some (Kfifo 0 0 0 (u32 esize) buffer, - EINVAL)).
Proof. apply kfifo_init_count_spec. Qed.

Lemma kfifo_init_by_count_witness :
  (2 <= 100 / 4 < 2 ^ 31 ->
   exists k, 1 <= k <= 30 /\ 2 ^ k <= 100 / 4 < 2 ^ (k + 1) /\
     __kfifo_init fifo8 (replicate 100 0) 100 4
     = Some (Kfifo 0 0 (2 ^ k - 1) 4 (replicate 100 0), 0)) /\
  (100 / 4 < 2 \/ 2 ^ 31 <= 100 / 4 ->
   __kfifo_init fifo8 (replicate 100 0) 100 4
   = Some (Kfifo 0 0 0 (u32 4) (replicate 100 0), - EINVAL)).
Proof. apply (kfifo_init_by_count fifo8 (replicate 100 0) 100 4); lia. Defined.

(** ** Occupancy queries *)

Lemma kfifo_is_empty_len f :
  0 <= in_ f < 2 ^ 32 -> 0 <= out f < 2 ^ 32 ->
  (kfifo_is_empty f = true <-> kfifo_len f = 0).
Proof.
  intros Hi Ho. unfold kfifo_is_empty, kfifo_len, u32.
  rewrite bool_decide_eq_true. split.
  - intros ->. rewrite Z.sub_diag. reflexivity.
  - intros E. destruct (Z_lt_dec (in_ f) (out f)) as [Hlt|Hge].
    + exfalso.
      assert (E' : (in_ f - out f) mod 2 ^ 32 = in_ f - out f + 2 ^ 32).
      { symmetry. apply (Z.mod_unique_pos _ _ (-1)); lia. }
      lia.
    + rewrite Z.mod_small in E by lia. lia.
Qed.

(** X5: a successful [__kfifo_init] over a buffer that holds the [size]
    bytes announced yields an initialized fifo that is empty: nothing is
    queued, every slot is unused, and its slots fit the [size] bytes of
    the buffer it records. *)
Theorem kfifo_init_ready f0 buffer size es f :
  0 < es < 2 ^ 64 -> 0 <= size < 2 ^ 32 ->
  size <= Z.of_nat (length buffer) ->
  __kfifo_init f0 buffer size es = Some (f, 0) ->
  initialized f /\ kfifo_is_empty f = true /\ kfifo_len f = 0 /\
  kfifo_unused f = kfifo_size f /\ contents f = [] /\
  kfifo_size f * esize f <= size /\ esize f = es /\ data f = buffer.
Proof.
  intros He Hs Hbuf Hrun.
  destruct (kfifo_init_initialized f0 buffer size es f He Hs Hbuf Hrun)
    as (Hinit & Hocc & Hlen).
  split; [exact Hinit|]. split.
  { apply kfifo_is_empty_len; [apply Hinit|apply Hinit|exact Hlen]. }
  split; [exact Hlen|]. split.
  { rewrite kfifo_unused_eq by assumption. lia. }
  split; [apply contents_empty; assumption|].
  destruct (kfifo_init_count_spec f0 buffer size es He Hs) as [Hok Hfail].
  destruct (Z_lt_dec (size / es) 2) as [Hlow|Hge].
  { rewrite Hfail in Hrun by lia. discriminate. }
  destruct (Z_le_dec (2 ^ 31) (size / es)) as [Hhigh|Hlt].
  { rewrite Hfail in Hrun by lia. discriminate. }
  destruct Hok as (k & Hk & Hcount & E); [lia|].
  rewrite E in Hrun. injection Hrun as <-.
  split; [|split; reflexivity].
  unfold kfifo_size. simpl.
  assert (2 ^ k < 2 ^ 31) by (apply Z.pow_lt_mono_r; lia).
  rewrite u32_small by lia.
  pose proof (Z.mul_div_le size es ltac:(lia)). nia.
Qed.

Lemma kfifo_init_ready_witness :
  initialized fifo8_fresh /\ kfifo_is_empty fifo8_fresh = true /\
  kfifo_len fifo8_fresh = 0 /\
  kfifo_unused fifo8_fresh = kfifo_size fifo8_fresh /\
  contents fifo8_fresh = [] /\
  kfifo_size fifo8_fresh * esize fifo8_fresh <= 8 /\
  esize fifo8_fresh = 1 /\ data fifo8_fresh = replicate 8 0.
Proof.
  apply (kfifo_init_ready fifo8_AB (replicate 8 0) 8 1);
    [lia|lia|simpl; lia|reflexivity].
Defined.

(** X6: on an initialized fifo within capacity, queued and unused slots
    add up to the capacity; the fifo reads as empty exactly when nothing
    is queued and as full exactly when no slot is unused. *)
Theorem kfifo_queries f :
  initialized f -> occupancy_ok f ->
  kfifo_len f + kfifo_unused f = kfifo_size f /\
  (kfifo_is_empty f = true <-> kfifo_len f = 0) /\
  (kfifo_is_full f = true <-> kfifo_unused f = 0) /\
  (kfifo_is_full f = true <-> kfifo_len f = kfifo_size f).
Proof.
  intros Hinit Hocc.
  pose proof (kfifo_unused_eq f Hinit Hocc) as Hu.
  pose proof (kfifo_size_capacity f Hinit) as Hs.
  pose proof Hocc as Hocc1. unfold occupancy_ok in Hocc1.
  split; [lia|]. split.
  { apply kfifo_is_empty_len; apply Hinit. }
  unfold kfifo_is_full. rewrite bool_decide_eq_true. split; lia.
Qed.

Lemma kfifo_queries_witness :
  kfifo_len fifo8_wrapped + kfifo_unused fifo8_wrapped
  = kfifo_size fifo8_wrapped /\
  (kfifo_is_empty fifo8_wrapped = true <-> kfifo_len fifo8_wrapped = 0) /\
  (kfifo_is_full fifo8_wrapped = true <-> kfifo_unused fifo8_wrapped = 0) /\
  (kfifo_is_full fifo8_wrapped = true
   <-> kfifo_len fifo8_wrapped = kfifo_size fifo8_wrapped).
Proof.
  apply (kfifo_queries fifo8_wrapped
           fifo8_wrapped_initialized fifo8_wrapped_occupancy_ok).
Defined.

(** ** Occupancy accounting *)

(** X7: on an initialized fifo within capacity, [__kfifo_in] raises the
    occupancy by the count it returns and lowers the unused count by it,
    and [__kfifo_out] does the reverse; both leave an initialized fifo
    within capacity, of the same capacity and element size. *)
Theorem kfifo_in_out_accounting f src dst req_in req_out :
  initialized f -> occupancy_ok f -> 0 <= req_in -> 0 <= req_out ->
  Z.min req_in (kfifo_unused f) * esize f <= Z.of_nat (length src) ->
  Z.min req_out (kfifo_len f) * esize f <= Z.of_nat (length dst) ->
  (exists f' n, __kfifo_in f src req_in = Some (f', n) /\
     initialized f' /\ occupancy_ok f' /\
     kfifo_len f' = kfifo_len f + n /\
     kfifo_unused f' = kfifo_unused f - n /\
     kfifo_size f' = kfifo_size f /\ esize f' = esize f) /\
  (exists f' dst' m, __kfifo_out f dst req_out = Some (f', dst', m) /\
     initialized f' /\ occupancy_ok f' /\
     kfifo_len f' = kfifo_len f - m /\
     kfifo_unused f' = kfifo_unused f + m /\
     kfifo_size f' = kfifo_size f /\ esize f' = esize f).
Proof.
  intros Hinit Hocc Hin Hout Hsrc Hdst.
  pose proof (u32_range (in_ f - out f)) as Hr. fold (kfifo_len f) in Hr.
  split.
  - destruct (kfifo_in_spec f src req_in Hinit Hocc Hin Hsrc) as (d & E & _).
    destruct (kfifo_in_contents f src req_in _ _ Hinit Hocc Hin Hsrc E)
      as (_ & Hi' & Ho' & Hl' & Hm' & He' & _).
    eexists _, _. split; [exact E|].
    split; [exact Hi'|]. split; [exact Ho'|]. split; [exact Hl'|].
    assert (Hsz : kfifo_size (set_in (u32 (in_ f + Z.min req_in (kfifo_unused f)))
                               (set_data d f)) = kfifo_size f) by reflexivity.
    split; [|split; [exact Hsz|exact He']].
    pose proof (kfifo_unused_eq _ Hi' Ho') as U1.
    pose proof (kfifo_unused_eq f Hinit Hocc) as U2.
    rewrite Hsz in U1. lia.
  - rewrite kfifo_out_contents by assumption.
    set (m := Z.min req_out (kfifo_len f)).
    assert (Hi' : initialized (set_out (u32 (out f + m)) f))
      by (apply initialized_set_out; assumption).
    destruct (occupancy_ok_set_out f m Hinit Hocc) as [Hl' Ho'];
      [unfold m; lia|].
    eexists _, _, _. split; [reflexivity|].
    split; [exact Hi'|]. split; [exact Ho'|]. split; [exact Hl'|].
    split; [|split; reflexivity].
    pose proof (kfifo_unused_eq _ Hi' Ho') as U1.
    pose proof (kfifo_unused_eq f Hinit Hocc) as U2.
    change (kfifo_size (set_out (u32 (out f + m)) f)) with (kfifo_size f) in U1.
    lia.
Qed.

Lemma kfifo_in_out_accounting_witness :
  (exists f' n, __kfifo_in fifo8_wrapped [70; 71; 72; 73] 4 = Some (f', n) /\
     initialized f' /\ occupancy_ok f' /\
     kfifo_len f' = kfifo_len fifo8_wrapped + n /\
     kfifo_unused f' = kfifo_unused fifo8_wrapped - n /\
     kfifo_size f' = kfifo_size fifo8_wrapped /\
     esize f' = esize fifo8_wrapped) /\
  (exists f' dst' m,
     __kfifo_out fifo8_wrapped [0; 0; 0; 0] 4 = Some (f', dst', m) /\
     initialized f' /\ occupancy_ok f' /\
     kfifo_len f' = kfifo_len fifo8_wrapped - m /\
     kfifo_unused f' = kfifo_unused fifo8_wrapped + m /\
     kfifo_size f' = kfifo_size fifo8_wrapped /\
     esize f' = esize fifo8_wrapped).
Proof.
  apply (kfifo_in_out_accounting fifo8_wrapped [70; 71; 72; 73] [0; 0; 0; 0]
           4 4 fifo8_wrapped_initialized fifo8_wrapped_occupancy_ok);
    vm_compute; discriminate.
Defined.

(** ** Full and empty fifos *)

Lemma set_in_same f : 0 <= in_ f < 2 ^ 32 ->
  set_in (u32 (in_ f + 0)) (set_data (data f) f) = f.
Proof.
  intros H. destruct f as [i o m e d]. unfold set_in, set_data. simpl in *.
  rewrite Z.add_0_r, u32_small by lia. reflexivity.
Qed.

Lemma set_out_same f : 0 <= out f < 2 ^ 32 -> set_out (u32 (out f + 0)) f = f.
Proof.
  intros H. destruct f as [i o m e d]. unfold set_out. simpl in *.
  rewrite Z.add_0_r, u32_small by lia. reflexivity.
Qed.

(** X8: on an initialized fifo within capacity, [__kfifo_in] on a full
    fifo returns 0 and leaves the fifo, storage included, as it is, and
    [__kfifo_out] on an empty fifo returns 0 and leaves the fifo and the
    destination as they are, whatever the request and the region. *)
Theorem kfifo_in_full_out_empty f buf len :
  initialized f -> occupancy_ok f -> 0 <= len ->
  (kfifo_unused f = 0 -> __kfifo_in f buf len = Some (f, 0)) /\
  (kfifo_len f = 0 -> __kfifo_out f buf len = Some (f, buf, 0)).
Proof.
  intros Hinit Hocc Hlen. split.
  - intros Hfull.
    assert (Hn : Z.min len (kfifo_unused f) = 0) by lia.
    destruct (kfifo_in_spec f buf len Hinit Hocc Hlen) as (d & E & L & Hlook).
    { rewrite Hn. lia. }
    rewrite Hn in E, Hlook.
    assert (Hd : d = data f).
    { apply list_eq. intros i. rewrite Hlook.
      pose proof (byte_size_range f Hinit).
      pose proof (Z.mod_pos_bound (Z.of_nat i - in_ f * esize f) (byte_size f)
                    ltac:(lia)).
      rewrite decide_False by lia. reflexivity. }
    rewrite E, Hd, set_in_same by apply Hinit. reflexivity.
  - intros Hempty.
    assert (Hn : Z.min len (kfifo_len f) = 0) by lia.
    rewrite kfifo_out_contents by (assumption || rewrite Hn; lia).
    rewrite Hn, set_out_same by apply Hinit. reflexivity.
Qed.

Lemma kfifo_in_full_out_empty_witness :
  (kfifo_unused fifo8 = 0 -> __kfifo_in fifo8 [1; 2] 2 = Some (fifo8, 0)) /\
  (kfifo_len fifo8 = 0 -> __kfifo_out fifo8 [1; 2] 2 = Some (fifo8, [1; 2], 0)).
Proof.
  apply (kfifo_in_full_out_empty fifo8 [1; 2] 2
           fifo8_initialized fifo8_occupancy_ok). lia.
Defined.

(** ** Resetting and skipping *)

(** X9: [kfifo_reset] and [kfifo_reset_out] leave an initialized fifo
    with nothing queued and every slot unused, whatever the indices were
    before (also when the occupancy was above the capacity); neither
    touches the storage, and [kfifo_reset_out] keeps the write index. *)
Theorem kfifo_reset_empties f :
  initialized f ->
  (initialized (kfifo_reset f) /\ occupancy_ok (kfifo_reset f) /\
   kfifo_len (kfifo_reset f) = 0 /\
   kfifo_unused (kfifo_reset f) = kfifo_size f /\
   contents (kfifo_reset f) = [] /\ data (kfifo_reset f) = data f) /\
  (initialized (kfifo_reset_out f) /\ occupancy_ok (kfifo_reset_out f) /\
   kfifo_len (kfifo_reset_out f) = 0 /\
   kfifo_unused (kfifo_reset_out f) = kfifo_size f /\
   contents (kfifo_reset_out f) = [] /\ data (kfifo_reset_out f) = data f /\
   in_ (kfifo_reset_out f) = in_ f).
Proof.
  intros Hinit.
  assert (H1 : initialized (kfifo_reset f)).
  { destruct Hinit as [H1 H2 H3 H4 H5 H6].
    constructor; simpl; try assumption; lia. }
  assert (H2 : initialized (kfifo_reset_out f)).
  { destruct Hinit as [H1' H2 H3 H4 H5 H6]. constructor; simpl; assumption. }
  assert (L1 : kfifo_len (kfifo_reset f) = 0) by reflexivity.
  assert (L2 : kfifo_len (kfifo_reset_out f) = 0).
  { unfold kfifo_len. simpl. rewrite Z.sub_diag. reflexivity. }
  pose proof (capacity_range f Hinit) as Hc.
  assert (O1 : occupancy_ok (kfifo_reset f)).
  { unfold occupancy_ok. rewrite L1, kfifo_size_capacity by assumption.
    simpl. lia. }
  assert (O2 : occupancy_ok (kfifo_reset_out f)).
  { unfold occupancy_ok. rewrite L2, kfifo_size_capacity by assumption.
    simpl. lia. }
  split.
  - split; [exact H1|]. split; [exact O1|]. split; [exact L1|]. split.
    { rewrite kfifo_unused_eq, L1 by assumption.
      change (kfifo_size (kfifo_reset f)) with (kfifo_size f). lia. }
    split; [apply contents_empty; assumption|reflexivity].
  - split; [exact H2|]. split; [exact O2|]. split; [exact L2|]. split.
    { rewrite kfifo_unused_eq, L2 by assumption.
      change (kfifo_size (kfifo_reset_out f)) with (kfifo_size f). lia. }
    split; [apply contents_empty; assumption|]. split; reflexivity.
Qed.

(** The fifo that [skip_record] leaves of the fresh fifo: the read index is
    ahead of the write index. *)
Lemma kfifo_reset_empties_witness :
  (initialized (kfifo_reset (Kfifo 0 1 7 1 (replicate 8 0))) /\
   occupancy_ok (kfifo_reset (Kfifo 0 1 7 1 (replicate 8 0))) /\
   kfifo_len (kfifo_reset (Kfifo 0 1 7 1 (replicate 8 0))) = 0 /\
   kfifo_unused (kfifo_reset (Kfifo 0 1 7 1 (replicate 8 0)))
   = kfifo_size (Kfifo 0 1 7 1 (replicate 8 0)) /\
   contents (kfifo_reset (Kfifo 0 1 7 1 (replicate 8 0))) = [] /\
   data (kfifo_reset (Kfifo 0 1 7 1 (replicate 8 0))) = replicate 8 0) /\
  (initialized (kfifo_reset_out (Kfifo 0 1 7 1 (replicate 8 0))) /\
   occupancy_ok (kfifo_reset_out (Kfifo 0 1 7 1 (replicate 8 0))) /\
   kfifo_len (kfifo_reset_out (Kfifo 0 1 7 1 (replicate 8 0))) = 0 /\
   kfifo_unused (kfifo_reset_out (Kfifo 0 1 7 1 (replicate 8 0)))
   = kfifo_size (Kfifo 0 1 7 1 (replicate 8 0)) /\
   contents (kfifo_reset_out (Kfifo 0 1 7 1 (replicate 8 0))) = [] /\
   data (kfifo_reset_out (Kfifo 0 1 7 1 (replicate 8 0))) = replicate 8 0 /\
   in_ (kfifo_reset_out (Kfifo 0 1 7 1 (replicate 8 0))) = 0).
Proof.
  apply (kfifo_reset_empties (Kfifo 0 1 7 1 (replicate 8 0))).
  constructor; simpl; try lia. exists 3. split; [lia|reflexivity].
Defined.

(** X10: on an initialized fifo within capacity, [kfifo_skip_n] of [n]
    queued elements leaves the fifo that dequeuing [n] elements leaves: the
    oldest [n] elements are gone, the rest is queued as before; and
    [kfifo_skip] on a fifo without records that is not empty drops the
    oldest element. *)
Theorem kfifo_skip_n_drops f n dst :
  initialized f -> occupancy_ok f ->
  0 <= n <= kfifo_len f -> n * esize f <= Z.of_nat (length dst) ->
  __kfifo_out f dst n
  = Some (kfifo_skip_n f n,
          take (Z.to_nat (n * esize f)) (contents f)
          ++ drop (Z.to_nat (n * esize f)) dst, n) /\
  contents (kfifo_skip_n f n) = drop (Z.to_nat (n * esize f)) (contents f) /\
  initialized (kfifo_skip_n f n) /\ occupancy_ok (kfifo_skip_n f n) /\
  kfifo_len (kfifo_skip_n f n) = kfifo_len f - n /\
  (1 <= kfifo_len f ->
   exists f', kfifo_skip f 0 = Some f' /\
     contents f' = drop (Z.to_nat (esize f)) (contents f) /\
     kfifo_len f' = kfifo_len f - 1).
Proof.
  intros Hinit Hocc Hn Hdst. unfold kfifo_skip_n.
  assert (Hm : Z.min n (kfifo_len f) = n) by lia.
  split.
  { rewrite kfifo_out_contents by (assumption || lia || rewrite Hm; lia).
    rewrite Hm. reflexivity. }
  split; [apply contents_drop; assumption|].
  split; [apply initialized_set_out; assumption|].
  destruct (occupancy_ok_set_out f n Hinit Hocc Hn) as [Hl Ho].
  split; [exact Ho|]. split; [exact Hl|].
  intros Hone. eexists. split; [reflexivity|]. split.
  - rewrite contents_drop by (assumption || lia).
    rewrite Z.mul_1_l. reflexivity.
  - apply (occupancy_ok_set_out f 1 Hinit Hocc). lia.
Qed.

Lemma kfifo_skip_n_drops_witness :
  __kfifo_out fifo8_wrapped [0; 0; 0] 3
  = Some (kfifo_skip_n fifo8_wrapped 3,
          take (Z.to_nat (3 * 1)) (contents fifo8_wrapped)
          ++ drop (Z.to_nat (3 * 1)) [0; 0; 0], 3) /\
  contents (kfifo_skip_n fifo8_wrapped 3)
  = drop (Z.to_nat (3 * 1)) (contents fifo8_wrapped) /\
  initialized (kfifo_skip_n fifo8_wrapped 3) /\
  occupancy_ok (kfifo_skip_n fifo8_wrapped 3) /\
  kfifo_len (kfifo_skip_n fifo8_wrapped 3) = kfifo_len fifo8_wrapped - 3 /\
  (1 <= kfifo_len fifo8_wrapped ->
   exists f', kfifo_skip fifo8_wrapped 0 = Some f' /\
     contents f' = drop (Z.to_nat 1) (contents fifo8_wrapped) /\
     kfifo_len f' = kfifo_len fifo8_wrapped - 1).
Proof.
  apply (kfifo_skip_n_drops fifo8_wrapped 3 [0; 0; 0]
           fifo8_wrapped_initialized fifo8_wrapped_occupancy_ok).
  - vm_compute. split; discriminate.
  - vm_compute. discriminate.
Defined.

(** ** Record lengths *)

(** X11: for a header width of 0 to 3 bytes, [__kfifo_max_r] returns [len]
    clamped to [2^(8 * recsize) - 1], the largest length the header can
    hold. *)
Theorem kfifo_max_r_clamps len recsize :
  0 <= recsize <= 3 -> 0 <= len < 2 ^ 32 ->
  __kfifo_max_r len recsize = Some (Z.min len (max_record recsize)).
Proof.
  intros Hrec Hlen.
  assert (Hc : recsize = 0 \/ recsize = 1 \/ recsize = 2 \/ recsize = 3) by lia.
  unfold __kfifo_max_r, max_record.
  destruct Hc as [-> | [-> | [-> | ->]]].
  - change (size_t (Z.shiftl 0 3)) with 0.
    change (u32 (Z.shiftl 1 0 - 1)) with 0.
    change (2 ^ (8 * 0) - 1) with 0.
    rewrite decide_True by lia. case_decide; f_equal; lia.
  - change (size_t (Z.shiftl 1 3)) with 8.
    change (u32 (Z.shiftl 1 8 - 1)) with 255.
    change (2 ^ (8 * 1) - 1) with 255.
    rewrite decide_True by lia. case_decide; f_equal; lia.
  - change (size_t (Z.shiftl 2 3)) with 16.
    change (u32 (Z.shiftl 1 16 - 1)) with 65535.
    change (2 ^ (8 * 2) - 1) with 65535.
    rewrite decide_True by lia. case_decide; f_equal; lia.
  - change (size_t (Z.shiftl 3 3)) with 24.
    change (u32 (Z.shiftl 1 24 - 1)) with 16777215.
    change (2 ^ (8 * 3) - 1) with 16777215.
    rewrite decide_True by lia. case_decide; f_equal; lia.
Qed.

Lemma kfifo_max_r_clamps_witness :
  __kfifo_max_r 70000 2 = Some (Z.min 70000 (max_record 2)).
Proof. apply (kfifo_max_r_clamps 70000 2); lia. Defined.

(** X12: on an initialized record-mode fifo within capacity,
    [kfifo_avail] returns 0 when no more than the header fits, and
    otherwise the free bytes behind a header, clamped to the largest
    length the header can hold; [__kfifo_in_r] accepts every record of a
    length from 1 up to that value, and the header it stores decodes to
    that length. *)
Theorem kfifo_avail_fits f recsize :
  initialized f -> occupancy_ok f -> esize f = 1 ->
  recsize = 1 \/ recsize = 2 ->
  exists a,
    kfifo_avail f recsize = Some a /\
    a = (if decide (kfifo_unused f <= recsize) then 0
         else Z.min (kfifo_unused f - recsize) (max_record recsize)) /\
    forall buf len,
      0 < len <= a -> len <= Z.of_nat (length buf) ->
      exists f',
        __kfifo_in_r f buf len recsize = Some (f', len) /\
        __kfifo_peek_n (set_out (in_ f) f') recsize = Some len.
Proof.
  intros Hinit Hocc E1 Hrec.
  pose proof (u32_range (u32 (mask f + 1) - u32 (in_ f - out f))) as Hur.
  fold (kfifo_unused f) in Hur.
  assert (Hmax : 0 < max_record recsize < 2 ^ 32).
  { unfold max_record. destruct Hrec as [-> | ->]; simpl; lia. }
  eexists. split; [|split; [reflexivity|]].
  - unfold kfifo_avail.
    change (u32 (kfifo_size f - kfifo_len f)) with (kfifo_unused f).
    rewrite decide_True by lia. case_decide as Hsmall; [reflexivity|].
    assert (Hsz : size_t (kfifo_unused f - recsize) = kfifo_unused f - recsize).
    { unfold size_t. apply Z.mod_small. lia. }
    rewrite Hsz, u32_small by lia.
    rewrite kfifo_max_r_eq by (assumption || lia). reflexivity.
  - intros buf len Hlen Hbuf. case_decide as Hsmall; [lia|].
    destruct (kfifo_in_r_accept f buf len recsize) as (d' & E & L & Hlook);
      try assumption; try lia.
    eexists. split; [exact E|].
    rewrite (kfifo_in_r_header f d' buf len recsize) by (assumption || lia).
    f_equal. apply Z.mod_small. unfold max_record in *. lia.
Qed.

Lemma kfifo_avail_fits_witness :
  exists a,
    kfifo_avail fifo8_AB 1 = Some a /\
    a = (if decide (kfifo_unused fifo8_AB <= 1) then 0
         else Z.min (kfifo_unused fifo8_AB - 1) (max_record 1)) /\
    forall buf len,
      0 < len <= a -> len <= Z.of_nat (length buf) ->
      exists f',
        __kfifo_in_r fifo8_AB buf len 1 = Some (f', len) /\
        __kfifo_peek_n (set_out (in_ fifo8_AB) f') 1 = Some len.
Proof.
  apply (kfifo_avail_fits fifo8_AB 1
           fifo8_AB_initialized fifo8_AB_occupancy_ok).
  - reflexivity.
  - left. reflexivity.
Defined.

(** ** Framed records *)

Section Frames.
Variable f : __kfifo.
Variable recsize : Z.
Hypothesis Hinit : initialized f.
Hypothesis Hocc : occupancy_ok f.
Hypothesis E1 : esize f = 1.
Hypothesis Hrec : recsize = 1 \/ recsize = 2.

Lemma frame_length p :
  Z.of_nat (length (frame recsize p)) = recsize + Z.of_nat (length p).
Proof using Hrec.
  unfold frame. rewrite length_app, Nat2Z.inj_add.
  rewrite record_header_length by assumption. reflexivity.
Qed.

Lemma framed_len p rest :
  contents f = frame recsize p ++ rest ->
  kfifo_len f
  = recsize + Z.of_nat (length p) + Z.of_nat (length rest).
Proof using Hinit Hocc E1 Hrec.
  intros Hc. destruct (contents_spec f Hinit Hocc) as [Lc _].
  rewrite Hc, length_app, Nat2Z.inj_add, frame_length, E1 in Lc. lia.
Qed.

Lemma kfifo_peek_n_frame p rest :
  contents f = frame recsize p ++ rest ->
  Z.of_nat (length p) <= max_record recsize ->
  __kfifo_peek_n f recsize = Some (Z.of_nat (length p)).
Proof using Hinit Hocc E1 Hrec.
  intros Hc Hmax. pose proof (framed_len p rest Hc) as Hlen.
  destruct (contents_spec f Hinit Hocc) as [_ Hc0].
  destruct (kfifo_peek_n_spec f Hinit recsize Hrec) as (l & h & Hl & Hh & E).
  rewrite E. f_equal. clear E.
  rewrite land_mask in Hl, Hh by assumption.
  rewrite mod_u32 in Hh by assumption.
  unfold byte_size in Hc0. rewrite E1 in Hc0.
  assert (H0 : contents f !! 0%nat = Some l).
  { rewrite (Hc0 0%nat) by lia. rewrite <- Hl. f_equal. f_equal. f_equal; lia. }
  set (n := Z.of_nat (length p)) in *.
  unfold max_record in Hmax.
  rewrite Hc in H0. unfold frame in H0. fold n in H0.
  destruct Hrec as [-> | ->].
  - unfold record_header in H0. rewrite decide_False in H0 by lia.
    simpl in H0. injection H0 as <-.
    rewrite decide_True by reflexivity.
    unfold uchar. apply Z.mod_small. change (2 ^ (8 * 1)) with (2 ^ 8) in Hmax.
    lia.
  - assert (H1 : contents f !! 1%nat = Some h).
    { rewrite (Hc0 1%nat) by lia. rewrite <- Hh. f_equal. f_equal. f_equal; lia. }
    rewrite Hc in H1. unfold frame in H1. fold n in H1.
    unfold record_header in H0, H1. rewrite decide_True in H0, H1 by lia.
    simpl in H0, H1. injection H0 as <-. injection H1 as <-.
    rewrite decide_False by lia. rewrite header_recombine.
    change (2 ^ (8 * 2)) with (2 ^ 16) in Hmax.
    rewrite (Z.mod_small n) by lia. apply u32_small. lia.
Qed.

Lemma framed_payload p rest m :
  contents f = frame recsize p ++ rest ->
  0 <= m <= Z.of_nat (length p) ->
  take (Z.to_nat m) (drop (Z.to_nat recsize) (contents f))
  = take (Z.to_nat m) p.
Proof using Hrec.
  intros Hc Hm. rewrite Hc. unfold frame. rewrite <- app_assoc.
  rewrite drop_app_length'
    by (pose proof (record_header_length recsize (Z.of_nat (length p)) Hrec);
        lia).
  apply take_app_le. lia.
Qed.

Lemma framed_rest p rest :
  contents f = frame recsize p ++ rest ->
  contents (set_out (u32 (out f + Z.of_nat (length p) + recsize)) f) = rest.
Proof using Hinit Hocc E1 Hrec.
  intros Hc. pose proof (framed_len p rest Hc) as Hlen.
  replace (out f + Z.of_nat (length p) + recsize)
    with (out f + (Z.of_nat (length p) + recsize)) by ring.
  rewrite contents_drop by (assumption || lia).
  rewrite E1, Z.mul_1_r, Hc.
  apply drop_app_length'. pose proof (frame_length p). lia.
Qed.

Lemma kfifo_out_r_frame p rest dst cap :
  contents f = frame recsize p ++ rest ->
  Z.of_nat (length p) <= max_record recsize ->
  0 <= cap -> Z.min cap (Z.of_nat (length p)) <= Z.of_nat (length dst) ->
  let m := Z.min cap (Z.of_nat (length p)) in
  let f' := set_out (u32 (out f + Z.of_nat (length p) + recsize)) f in
  __kfifo_out_r f dst cap recsize
  = Some (f', take (Z.to_nat m) p ++ drop (Z.to_nat m) dst, m) /\
  contents f' = rest /\ initialized f' /\ occupancy_ok f' /\ esize f' = 1.
Proof using Hinit Hocc E1 Hrec.
  intros Hc Hmax Hcap Hdst m f'.
  pose proof (framed_len p rest Hc) as Hlen.
  pose proof (kfifo_peek_n_frame p rest Hc Hmax) as Hpeek.
  split.
  { rewrite (kfifo_out_r_spec f dst cap recsize (Z.of_nat (length p)))
      by (assumption || lia).
    fold m. rewrite (framed_payload p rest m Hc) by (unfold m; lia).
    reflexivity. }
  split; [apply framed_rest; assumption|].
  split; [apply initialized_set_out; assumption|].
  split; [|exact E1]. unfold f'.
  replace (out f + Z.of_nat (length p) + recsize)
    with (out f + (Z.of_nat (length p) + recsize)) by ring.
  apply occupancy_ok_set_out; try assumption. lia.
Qed.
End Frames.

(** X13: on an initialized record-mode fifo within capacity whose queued
    bytes start with the frame of a record [p] that the header width can
    describe, [__kfifo_len_r] returns the length of [p];
    [__kfifo_out_peek_r] and [__kfifo_out_r] both deliver the first
    [min(len, length p)] bytes of [p]; the fifo that [__kfifo_out_r]
    leaves queues exactly the bytes behind the frame, so a tail that did
    not fit the destination is gone and the following record is next. *)
Theorem dequeue_record_frame f recsize p rest dst cap :
  initialized f -> occupancy_ok f -> esize f = 1 ->
  recsize = 1 \/ recsize = 2 ->
  contents f = frame recsize p ++ rest ->
  Z.of_nat (length p) <= max_record recsize ->
  0 <= cap -> Z.min cap (Z.of_nat (length p)) <= Z.of_nat (length dst) ->
  let m := Z.min cap (Z.of_nat (length p)) in
  __kfifo_len_r f recsize = Some (Z.of_nat (length p)) /\
  __kfifo_out_peek_r f dst cap recsize
  = Some (take (Z.to_nat m) p ++ drop (Z.to_nat m) dst, m) /\
  exists f',
    __kfifo_out_r f dst cap recsize
    = Some (f', take (Z.to_nat m) p ++ drop (Z.to_nat m) dst, m) /\
    contents f' = rest /\ initialized f' /\ occupancy_ok f'.
Proof.
  intros Hinit Hocc E1 Hrec Hc Hmax Hcap Hdst m.
  pose proof (framed_len f recsize Hinit Hocc E1 Hrec p rest Hc) as Hlen.
  pose proof (kfifo_peek_n_frame f recsize Hinit Hocc E1 Hrec p rest Hc Hmax)
    as Hpeek.
  split; [exact Hpeek|]. split.
  - unfold __kfifo_out_peek_r.
    rewrite decide_False
      by (apply (header_fits_nonempty f recsize); [lia|];
          exists (Z.of_nat (length p)); split; [assumption|lia]).
    rewrite (kfifo_out_copy_r_spec f dst cap recsize (Z.of_nat (length p)))
      by (assumption || lia).
    fold m. simpl.
    rewrite (framed_payload f recsize Hrec p rest m Hc) by (unfold m; lia).
    reflexivity.
  - destruct (kfifo_out_r_frame f recsize Hinit Hocc E1 Hrec p rest dst cap
                Hc Hmax Hcap Hdst) as (E & Hrest & Hi & Ho & _).
    eexists. split; [exact E|]. tauto.
Qed.

(** [fifo8_AB] queues the frame of ["AB"]: Scenario B with a one byte
    destination. *)
Lemma dequeue_record_frame_witness :
  let m := Z.min 1 (Z.of_nat (length [65; 66])) in
  __kfifo_len_r fifo8_AB 1 = Some (Z.of_nat (length [65; 66])) /\
  __kfifo_out_peek_r fifo8_AB [0] 1 1
  = Some (take (Z.to_nat m) [65; 66] ++ drop (Z.to_nat m) [0], m) /\
  exists f',
    __kfifo_out_r fifo8_AB [0] 1 1
    = Some (f', take (Z.to_nat m) [65; 66] ++ drop (Z.to_nat m) [0], m) /\
    contents f' = [] /\ initialized f' /\ occupancy_ok f'.
Proof.
  apply (dequeue_record_frame fifo8_AB 1 [65; 66] [] [0] 1
           fifo8_AB_initialized fifo8_AB_occupancy_ok).
  - reflexivity.
  - left. reflexivity.
  - reflexivity.
  - vm_compute. discriminate.
  - lia.
  - vm_compute. discriminate.
Defined.

(** X14: on such a fifo [__kfifo_skip_r] leaves the fifo that
    [__kfifo_out_r] with an empty destination leaves: the whole first
    record is dropped and the bytes behind its frame stay queued. *)
Theorem skip_record_frame f recsize p rest :
  initialized f -> occupancy_ok f -> esize f = 1 ->
  recsize = 1 \/ recsize = 2 ->
  contents f = frame recsize p ++ rest ->
  Z.of_nat (length p) <= max_record recsize ->
  exists f',
    __kfifo_skip_r f recsize = Some f' /\
    __kfifo_out_r f [] 0 recsize = Some (f', [], 0) /\
    contents f' = rest /\ initialized f' /\ occupancy_ok f' /\
    kfifo_len f' = kfifo_len f - (Z.of_nat (length p) + recsize).
Proof.
  intros Hinit Hocc E1 Hrec Hc Hmax.
  pose proof (framed_len f recsize Hinit Hocc E1 Hrec p rest Hc) as Hlen.
  pose proof (kfifo_peek_n_frame f recsize Hinit Hocc E1 Hrec p rest Hc Hmax)
    as Hpeek.
  destruct (kfifo_out_r_frame f recsize Hinit Hocc E1 Hrec p rest [] 0
              Hc Hmax) as (E & Hrest & Hi & Ho & _); [lia|simpl; lia|].
  eexists. split.
  { unfold __kfifo_skip_r. rewrite Hpeek. reflexivity. }
  split.
  { rewrite E. replace (Z.min 0 (Z.of_nat (length p))) with 0 by lia.
    reflexivity. }
  split; [exact Hrest|]. split; [exact Hi|]. split; [exact Ho|].
  replace (out f + Z.of_nat (length p) + recsize)
    with (out f + (Z.of_nat (length p) + recsize)) by ring.
  apply (occupancy_ok_set_out f _ Hinit Hocc). lia.
Qed.

Lemma skip_record_frame_witness :
  exists f',
    __kfifo_skip_r fifo8_AB 1 = Some f' /\
    __kfifo_out_r fifo8_AB [] 0 1 = Some (f', [], 0) /\
    contents f' = [] /\ initialized f' /\ occupancy_ok f' /\
    kfifo_len f' = kfifo_len fifo8_AB - (Z.of_nat (length [65; 66]) + 1).
Proof.
  apply (skip_record_frame fifo8_AB 1 [65; 66] []
           fifo8_AB_initialized fifo8_AB_occupancy_ok).
  - reflexivity.
  - left. reflexivity.
  - reflexivity.
  - vm_compute. discriminate.
Defined.

(** ** Dequeueing a record, by the bytes of the storage *)

(** C5: on an initialized record-mode fifo, [__kfifo_out_r] on an empty
    fifo returns 0 and changes neither the fifo nor the destination; on a
    fifo whose storage queues, from the read index on, the header and the
    payload [p] of a record of length [n] it copies exactly the first
    [min(len, n)] bytes of [p] to the start of the destination (the rest
    of the destination keeps its value), returns that count and advances
    [out] by [n + recsize] whatever was copied, so that the bytes queued
    afterwards are those behind the record: an unread tail is discarded
    and the following record is the next one. *)
Theorem dequeue_record_consume f dst len recsize p rest :
  initialized f -> occupancy_ok f -> esize f = 1 ->
  recsize = 1 \/ recsize = 2 -> 0 <= len ->
  (in_ f = out f -> __kfifo_out_r f dst len recsize = Some (f, dst, 0)) /\
  (queued f = frame recsize p ++ rest ->
   Z.of_nat (length p) <= max_record recsize ->
   Z.min len (Z.of_nat (length p)) <= Z.of_nat (length dst) ->
   let n := Z.of_nat (length p) in
   let m := Z.min len n in
   let f' := set_out (u32 (out f + n + recsize)) f in
   __kfifo_out_r f dst len recsize
   = Some (f', take (Z.to_nat m) p ++ drop (Z.to_nat m) dst, m) /\
   queued f' = rest /\
   kfifo_len f' = kfifo_len f - (n + recsize)).
Proof.
  intros Hinit Hocc E1 Hrec Hlen. split.
  - intros Hempty. unfold __kfifo_out_r. rewrite decide_True by assumption.
    reflexivity.
  - intros Hq Hmax Hdst. cbv zeta.
    rewrite <- (contents_queued f Hinit Hocc) in Hq.
    pose proof (framed_len f recsize Hinit Hocc E1 Hrec p rest Hq) as Hl.
    destruct (kfifo_out_r_frame f recsize Hinit Hocc E1 Hrec p rest dst len
                Hq Hmax Hlen Hdst) as (E & Hrest & Hi & Ho & _).
    split; [exact E|]. split.
    + rewrite <- (contents_queued _ Hi Ho). exact Hrest.
    + replace (out f + Z.of_nat (length p) + recsize)
        with (out f + (Z.of_nat (length p) + recsize)) by ring.
      apply (occupancy_ok_set_out f _ Hinit Hocc). lia.
Qed.

(** Scenario B: the storage of [fifo8_AB] queues the header 2 and the
    payload 65, 66; a destination of one byte receives 65, and the fifo is
    empty afterwards. *)
Lemma dequeue_record_consume_witness :
  queued fifo8_AB = [2; 65; 66] /\
  __kfifo_out_r fifo8_AB [0] 1 1
  = Some (Kfifo 3 3 7 1 [2; 65; 66; 0; 0; 0; 0; 0], [65], 1) /\
  queued (Kfifo 3 3 7 1 [2; 65; 66; 0; 0; 0; 0; 0]) = [] /\
  kfifo_len (Kfifo 3 3 7 1 [2; 65; 66; 0; 0; 0; 0; 0]) = 3 - (2 + 1).
Proof.
  split; [reflexivity|].
  refine (proj2 (dequeue_record_consume fifo8_AB [0] 1 1 [65; 66] []
                   fifo8_AB_initialized fifo8_AB_occupancy_ok _ _ _) _ _ _).
  - reflexivity.
  - left. reflexivity.
  - lia.
  - reflexivity.
  - vm_compute. discriminate.
  - vm_compute. discriminate.
Defined.

(** ** Queues of records *)

Lemma frames_cons recsize p ps :
  frames recsize (p :: ps) = frame recsize p ++ frames recsize ps.
Proof. reflexivity. Qed.

Lemma frames_app recsize qs ps :
  frames recsize (qs ++ ps) = frames recsize qs ++ frames recsize ps.
Proof. unfold frames. rewrite map_app, concat_app. reflexivity. Qed.

Lemma kfifo_in_r_frame f recsize p :
  initialized f -> occupancy_ok f -> esize f = 1 ->
  recsize = 1 \/ recsize = 2 ->
  Z.of_nat (length p) + recsize <= kfifo_unused f ->
  exists f',
    __kfifo_in_r f p (Z.of_nat (length p)) recsize
    = Some (f', Z.of_nat (length p)) /\
    contents f' = contents f ++ frame recsize p /\
    initialized f' /\ occupancy_ok f' /\ esize f' = 1 /\
    kfifo_unused f' = kfifo_unused f - (Z.of_nat (length p) + recsize) /\
    kfifo_size f' = kfifo_size f.
Proof.
  intros Hinit Hocc E1 Hrec Hfit.
  destruct (kfifo_in_r_accept f p (Z.of_nat (length p)) recsize)
    as (d' & E & L & Hlook); try assumption; try lia.
  pose proof (kfifo_in_r_contents f d' p (Z.of_nat (length p)) recsize
                Hinit Hocc E1 Hrec ltac:(lia) Hfit ltac:(lia) L Hlook) as Hc.
  rewrite Nat2Z.id, firstn_all in Hc.
  set (f' := set_in (u32 (in_ f + Z.of_nat (length p) + recsize))
               (set_data d' f)) in *.
  assert (Hc' : contents f' = contents f ++ frame recsize p) by exact Hc.
  clear Hc. rename Hc' into Hc.
  assert (Hi' : initialized f') by (apply initialized_set_in; assumption).
  assert (Ho' : occupancy_ok f').
  { unfold f'.
    replace (in_ f + Z.of_nat (length p) + recsize)
      with (in_ f + (Z.of_nat (length p) + recsize)) by ring.
    apply occupancy_ok_set_in; try assumption; lia. }
  exists f'. split; [exact E|]. split; [exact Hc|].
  split; [exact Hi'|]. split; [exact Ho'|]. split; [exact E1|].
  split; [|reflexivity].
  destruct (contents_spec f Hinit Hocc) as [Lc _].
  destruct (contents_spec f' Hi' Ho') as [Lc' _].
  rewrite Hc, length_app, Nat2Z.inj_add, frame_length in Lc' by assumption.
  change (esize f') with (esize f) in Lc'. rewrite E1 in Lc, Lc'.
  pose proof (kfifo_unused_eq f Hinit Hocc) as U.
  pose proof (kfifo_unused_eq f' Hi' Ho') as U'.
  change (kfifo_size f') with (kfifo_size f) in U'. lia.
Qed.

Lemma enqueue_records_spec recsize ps : forall f,
  initialized f -> occupancy_ok f -> esize f = 1 ->
  recsize = 1 \/ recsize = 2 ->
  Z.of_nat (length (frames recsize ps)) <= kfifo_unused f ->
  exists f1,
    enqueue_records f recsize ps
    = Some (f1, map (fun p => Z.of_nat (length p)) ps) /\
    contents f1 = contents f ++ frames recsize ps /\
    initialized f1 /\ occupancy_ok f1 /\ esize f1 = 1.
Proof.
  induction ps as [|p ps IH]; intros f Hinit Hocc E1 Hrec Hfit.
  - exists f. simpl. rewrite app_nil_r. tauto.
  - rewrite frames_cons, length_app, Nat2Z.inj_add, frame_length in Hfit
      by assumption.
    destruct (kfifo_in_r_frame f recsize p Hinit Hocc E1 Hrec)
      as (f' & E & Hc & Hi' & Ho' & E1' & Hu' & _); [lia|].
    destruct (IH f' Hi' Ho' E1' Hrec) as (f1 & E2 & Hc2 & Hi2 & Ho2 & E12);
      [lia|].
    exists f1. simpl. rewrite E. simpl. rewrite E2. simpl.
    split; [reflexivity|]. split; [|tauto].
    rewrite Hc2, Hc, frames_cons, app_assoc. reflexivity.
Qed.

Lemma dequeue_records_spec recsize ps dsts rest :
  recsize = 1 \/ recsize = 2 ->
  Forall (fun p => Z.of_nat (length p) <= max_record recsize) ps ->
  Forall2 (fun (p : list Z) (d : call) =>
             Z.of_nat (length p) <= d.2 /\ d.2 <= Z.of_nat (length d.1))
    ps dsts ->
  forall f,
    initialized f -> occupancy_ok f -> esize f = 1 ->
    contents f = frames recsize ps ++ rest ->
    exists f2,
      dequeue_records f recsize dsts = Some (f2, ps) /\
      contents f2 = rest /\ initialized f2 /\ occupancy_ok f2.
Proof.
  intros Hrec Hmax HF.
  induction HF as [|p [dst cap] ps dsts [Hcap Hdst] HF IH];
    intros f Hinit Hocc E1 Hc.
  - exists f. simpl. tauto.
  - apply Forall_cons in Hmax as [Hp Hmax]. simpl in Hcap, Hdst.
    rewrite frames_cons, <- app_assoc in Hc.
    destruct (kfifo_out_r_frame f recsize Hinit Hocc E1 Hrec p
                (frames recsize ps ++ rest) dst cap Hc Hp)
      as (E & Hrest & Hi' & Ho' & E1'); [lia|lia|].
    destruct (IH Hmax _ Hi' Ho' E1' Hrest) as (f2 & E2 & Hc2 & Hi2 & Ho2).
    exists f2. simpl. rewrite E. simpl. rewrite E2. simpl.
    split; [|tauto]. f_equal. f_equal. f_equal.
    replace (Z.min cap (Z.of_nat (length p))) with (Z.of_nat (length p)) by lia.
    rewrite Nat2Z.id, firstn_all.
    rewrite take_app_length. reflexivity.
Qed.

(** X15: on an initialized record-mode fifo within capacity that queues
    the frames of the records [qs], enqueueing the records [ps] (each one
    that the header width can describe, all of them fitting the unused
    bytes) with [__kfifo_in_r] and then dequeueing one record per
    destination with [__kfifo_out_r], each destination large enough,
    delivers [qs] and then [ps], record by record, each with its bytes as
    enqueued, and leaves the fifo empty. *)
Theorem record_round_trip f recsize qs ps dsts :
  initialized f -> occupancy_ok f -> esize f = 1 ->
  recsize = 1 \/ recsize = 2 ->
  contents f = frames recsize qs ->
  Forall (fun p => Z.of_nat (length p) <= max_record recsize) (qs ++ ps) ->
  Z.of_nat (length (frames recsize ps)) <= kfifo_unused f ->
  Forall2 (fun (p : list Z) (d : call) =>
             Z.of_nat (length p) <= d.2 /\ d.2 <= Z.of_nat (length d.1))
    (qs ++ ps) dsts ->
  exists f1 f2,
    enqueue_records f recsize ps
    = Some (f1, map (fun p => Z.of_nat (length p)) ps) /\
    dequeue_records f1 recsize dsts = Some (f2, qs ++ ps) /\
    kfifo_len f2 = 0.
Proof.
  intros Hinit Hocc E1 Hrec Hc Hmax Hfit HF.
  destruct (enqueue_records_spec recsize ps f Hinit Hocc E1 Hrec Hfit)
    as (f1 & En & Hc1 & Hi1 & Ho1 & E11).
  rewrite Hc, <- frames_app in Hc1.
  destruct (dequeue_records_spec recsize (qs ++ ps) dsts [] Hrec Hmax HF
              f1 Hi1 Ho1 E11) as (f2 & Ed & Hc2 & Hi2 & Ho2).
  { rewrite app_nil_r. exact Hc1. }
  exists f1, f2. split; [exact En|]. split; [exact Ed|].
  destruct (contents_spec f2 Hi2 Ho2) as [L _].
  rewrite Hc2 in L. simpl in L.
  pose proof (init_esize _ Hi2).
  pose proof (u32_range (in_ f2 - out f2)) as Hr. fold (kfifo_len f2) in Hr.
  nia.
Qed.

(** [fifo8_AB] queues ["AB"]; the record ["C"] is added, then both are
    dequeued. *)
Lemma record_round_trip_witness :
  exists f1 f2,
    enqueue_records fifo8_AB 1 [[67]]
    = Some (f1, map (fun p => Z.of_nat (length p)) [[67]]) /\
    dequeue_records f1 1 [([0; 0; 0], 3); ([0; 0], 2)]
    = Some (f2, [[65; 66]] ++ [[67]]) /\
    kfifo_len f2 = 0.
Proof.
  apply (record_round_trip fifo8_AB 1 [[65; 66]] [[67]]
           [([0; 0; 0], 3); ([0; 0], 2)]
           fifo8_AB_initialized fifo8_AB_occupancy_ok).
  - reflexivity.
  - left. reflexivity.
  - reflexivity.
  - repeat constructor; vm_compute; discriminate.
  - vm_compute. discriminate.
  - repeat constructor; simpl; lia.
Defined.

(** ** Peeking *)

(** X16: on an initialized fifo within capacity, [__kfifo_out_peek]
    delivers the oldest [n = min(len, occupancy)] elements, the bytes the
    storage holds from the slot [out & mask] on, to the start of the
    destination, returns [n] and leaves the rest of the destination as it
    was; a peek that asks for more delivers the same elements first. *)
Theorem kfifo_out_peek_prefix f dst len :
  initialized f -> occupancy_ok f -> 0 <= len ->
  let n := Z.min len (kfifo_len f) in
  n * esize f <= Z.of_nat (length dst) ->
  __kfifo_out_peek f dst len
  = Some (take (Z.to_nat (n * esize f)) (queued f)
          ++ drop (Z.to_nat (n * esize f)) dst, n) /\
  forall dst2 len2,
    len <= len2 ->
    Z.min len2 (kfifo_len f) * esize f <= Z.of_nat (length dst2) ->
    exists b2 n2,
      __kfifo_out_peek f dst2 len2 = Some (b2, n2) /\ n <= n2 /\
      take (Z.to_nat (n * esize f)) b2
      = take (Z.to_nat (n * esize f)) (queued f).
Proof.
  intros Hinit Hocc Hlen n Hdst.
  pose proof (init_esize _ Hinit) as He.
  pose proof (u32_range (in_ f - out f)) as Hr. fold (kfifo_len f) in Hr.
  destruct (contents_spec f Hinit Hocc) as [Lc _].
  rewrite <- (contents_queued f Hinit Hocc).
  split; [apply kfifo_out_peek_contents; assumption|].
  intros dst2 len2 Hle Hdst2.
  rewrite kfifo_out_peek_contents by (assumption || lia).
  eexists _, _. split; [reflexivity|]. split; [unfold n; lia|].
  rewrite take_app_le by (rewrite length_take; unfold n; nia).
  rewrite take_take. f_equal. unfold n. nia.
Qed.

(** [fifo8_wrapped] holds 65 and 66 in its last two cells, at the read
    index. *)
Lemma kfifo_out_peek_prefix_witness :
  __kfifo_out_peek fifo8_wrapped [0; 0; 0] 2 = Some ([65; 66; 0], 2) /\
  forall dst2 len2,
    2 <= len2 ->
    Z.min len2 (kfifo_len fifo8_wrapped) * 1 <= Z.of_nat (length dst2) ->
    exists b2 n2,
      __kfifo_out_peek fifo8_wrapped dst2 len2 = Some (b2, n2) /\ 2 <= n2 /\
      take 2 b2 = [65; 66].
Proof.
  apply (kfifo_out_peek_prefix fifo8_wrapped [0; 0; 0] 2
           fifo8_wrapped_initialized fifo8_wrapped_occupancy_ok).
  - lia.
  - vm_compute. discriminate.
Defined.

(** ** Records without payload *)

(** X17: on an initialized record-mode fifo within capacity with room for
    a header, [__kfifo_in_r] accepts a record of length 0: it returns 0,
    as it does for a record it rejects, yet it queues the [recsize] header
    bytes; on a fifo that was empty, [__kfifo_out_r] then returns 0, leaves
    the destination as it is and consumes those bytes. *)
Theorem empty_record_is_queued f recsize dst cap :
  initialized f -> occupancy_ok f -> esize f = 1 ->
  recsize = 1 \/ recsize = 2 ->
  recsize <= kfifo_unused f -> 0 <= cap ->
  exists f1,
    __kfifo_in_r f [] 0 recsize = Some (f1, 0) /\
    kfifo_len f1 = kfifo_len f + recsize /\
    contents f1 = contents f ++ record_header recsize 0 /\
    (kfifo_len f = 0 ->
     exists f2, __kfifo_out_r f1 dst cap recsize = Some (f2, dst, 0) /\
                kfifo_len f1 = recsize /\ kfifo_len f2 = 0).
Proof.
  intros Hinit Hocc E1 Hrec Hfit Hcap.
  destruct (kfifo_in_r_frame f recsize [] Hinit Hocc E1 Hrec)
    as (f1 & E & Hc & Hi1 & Ho1 & E11 & Hu1 & Hsz); [simpl; lia|].
  simpl in E, Hu1. unfold frame in Hc. simpl in Hc. rewrite app_nil_r in Hc.
  change (Z.of_nat 0) with 0 in *.
  pose proof (kfifo_unused_eq f Hinit Hocc) as U.
  pose proof (kfifo_unused_eq f1 Hi1 Ho1) as U1.
  exists f1. split; [exact E|]. split; [lia|]. split; [exact Hc|].
  intros Hempty.
  assert (Hc1 : contents f1 = frame recsize [] ++ []).
  { rewrite Hc, (contents_empty f Hinit Hocc Hempty). unfold frame.
    simpl. rewrite !app_nil_r. reflexivity. }
  destruct (kfifo_out_r_frame f1 recsize Hi1 Ho1 E11 Hrec [] [] dst cap Hc1)
    as (Eo & Hrest & Hi2 & Ho2 & _).
  { unfold max_record. destruct Hrec as [-> | ->]; simpl; lia. }
  { lia. }
  { simpl. lia. }
  cbn [length] in *. change (Z.of_nat 0) with 0 in *.
  replace (Z.min cap 0) with 0 in Eo by lia.
  change (take (Z.to_nat 0) [] ++ drop (Z.to_nat 0) dst) with dst in Eo.
  eexists. split; [exact Eo|]. split; [lia|].
  destruct (contents_spec _ Hi2 Ho2) as [L _]. rewrite Hrest in L.
  change (esize (set_out (u32 (out f1 + 0 + recsize)) f1)) with (esize f1) in L.
  rewrite E11 in L. simpl in L. lia.
Qed.

Lemma empty_record_is_queued_witness :
  exists f1,
    __kfifo_in_r fifo8_fresh [] 0 1 = Some (f1, 0) /\
    kfifo_len f1 = kfifo_len fifo8_fresh + 1 /\
    contents f1 = contents fifo8_fresh ++ record_header 1 0 /\
    (kfifo_len fifo8_fresh = 0 ->
     exists f2, __kfifo_out_r f1 [9] 1 1 = Some (f2, [9], 0) /\
                kfifo_len f1 = 1 /\ kfifo_len f2 = 0).
Proof.
  apply (empty_record_is_queued fifo8_fresh 1 [9] 1
           fifo8_fresh_initialized fifo8_fresh_occupancy_ok).
  - reflexivity.
  - left. reflexivity.
  - vm_compute. discriminate.
  - lia.
Defined.
